(** * mem: read and write physical memory from the command line

    A shallow embedding of the two versions of the tool kept in the
    repository,

      - [Basic]    : src/mem.c             (widths b h w d, page size 4096)
      - [Extended] : src/unnamed/part_000  (adds the swapped modes H W D and
                                            asks the system for the page size)

    together with the properties the specification states about them.

    Integers are [Z] with the wrap-around of their C type written out,
    command-line tokens are [string]s (the characters before the
    terminating NUL), the operation array [OP] is a [list] updated by
    index, and physical memory is a function from byte addresses to byte
    values.  The C library functions the program calls ([strtoull],
    [bswap_16/32/64], [printf] with [%.NX]) are modelled from their
    ISO C / glibc contracts. *)

From Stdlib Require Import ZArith List String Ascii Bool Lia.
From stdpp Require Import base list.
Import ListNotations.
Open Scope string_scope.
Open Scope list_scope.
Open Scope Z_scope.

(** ** Characters and C strings *)

Definition code (c : ascii) : Z := Z.of_N (N_of_ascii c).

Definition NUL : ascii := ascii_of_N 0.
Definition nl : string := String (ascii_of_N 10) "".

(** [*p] : the character under the pointer, NUL at the end of the string. *)
Definition peek (p : string) : ascii :=
  match p with
  | EmptyString => NUL
  | String c _ => c
  end.

(** [p + 1]. *)
Definition advance (p : string) : string :=
  match p with
  | EmptyString => EmptyString
  | String _ r => r
  end.

(** Two pointers into the same token are equal exactly when the same number
    of characters is left in front of them. *)
Definition same_ptr (p q : string) : bool :=
  Nat.eqb (String.length p) (String.length q).

(** ** The C library *)

Definition ULLONG_MAX : Z := 2 ^ 64 - 1.

Definition to_uint64 (z : Z) : Z := z mod 2 ^ 64.

(** Conversion to a signed type of [bits] bits (two's complement). *)
Definition to_signed (bits : Z) (z : Z) : Z :=
  (z + 2 ^ (bits - 1)) mod 2 ^ bits - 2 ^ (bits - 1).

Definition to_int : Z -> Z := to_signed 32.
Definition to_off_t : Z -> Z := to_signed 64.

(** [isspace] in the C locale. *)
Definition isspace (c : ascii) : bool :=
  (code c =? 32) || ((9 <=? code c) && (code c <=? 13)).

(** The value of a character as a digit, letters counting from ten. *)
Definition digit_of (c : ascii) : option Z :=
  let n := code c in
  if (48 <=? n) && (n <=? 57) then Some (n - 48)
  else if (97 <=? n) && (n <=? 122) then Some (n - 87)
  else if (65 <=? n) && (n <=? 90) then Some (n - 55)
  else None.

Definition digit_in (base : Z) (c : ascii) : option Z :=
  match digit_of c with
  | Some d => if d <? base then Some d else None
  | None => None
  end.

Fixpoint skip_space (s : string) : string :=
  match s with
  | String c r => if isspace c then skip_space r else s
  | EmptyString => s
  end.

(** The longest run of digits of [base] at the front of [s]: its exact
    (unbounded) value, continuing from [acc], and what follows it. *)
Fixpoint scan_digits (base : Z) (acc : Z) (s : string) : Z * string :=
  match s with
  | String c r =>
      match digit_in base c with
      | Some d => scan_digits base (acc * base + d) r
      | None => (acc, s)
      end
  | EmptyString => (acc, s)
  end.

(** The sign of the subject sequence. *)
Definition scan_sign (s : string) : bool * string :=
  if (peek s =? "-")%char then (true, advance s)
  else if (peek s =? "+")%char then (false, advance s)
  else (false, s).

(** Base 0: a [0x]/[0X] prefix followed by a hexadecimal digit selects base
    16, another leading [0] base 8, anything else base 10. *)
Definition scan_base (s : string) : Z * string :=
  if (peek s =? "0")%char then
    let x := peek (advance s) in
    if ((x =? "x")%char || (x =? "X")%char)
       && match digit_in 16 (peek (advance (advance s))) with
          | Some _ => true
          | None => false
          end
    then (16, advance (advance s))
    else (8, s)
  else (10, s).

(** [strtoull (nptr, &endptr, 0)] as ISO C (C99, C11) describes it: the
    value and the end pointer.  Without a digit no conversion is performed:
    the value is 0 and the end pointer is [nptr].  A value that does not
    fit yields [ULLONG_MAX]; a minus sign negates in the unsigned type. *)
Definition strtoull (nptr : string) : Z * string :=
  let '(neg, s) := scan_sign (skip_space nptr) in
  let '(base, s) := scan_base s in
  match digit_in base (peek s) with
  | None => (0, nptr)
  | Some _ =>
      let '(n, endptr) := scan_digits base 0 s in
      (if ULLONG_MAX <? n then ULLONG_MAX
       else if neg then to_uint64 (- n)
       else n,
       endptr)
  end.

(** The [n] low bytes of [v], least significant first, and back. *)
Fixpoint to_le (n : nat) (v : Z) : list Z :=
  match n with
  | O => []
  | S k => v mod 256 :: to_le k (v / 256)
  end.

Fixpoint of_le (bs : list Z) : Z :=
  match bs with
  | [] => 0
  | b :: r => b + 256 * of_le r
  end.

(** [bswap_16], [bswap_32], [bswap_64] of <byteswap.h> for [n] = 2, 4, 8:
    the argument is converted to the [n]-byte unsigned type and its bytes
    are put in the opposite order. *)
Definition bswap (n : nat) (v : Z) : Z := of_le (rev (to_le n v)).

Definition hexchar (d : Z) : ascii :=
  ascii_of_N (Z.to_N (if d <? 10 then 48 + d else 55 + d)).

(** The hexadecimal digits of [v], least significant first, none for 0;
    sixteen digits are enough for a 64-bit value. *)
Fixpoint hex_rev (fuel : nat) (v : Z) : list ascii :=
  match fuel with
  | O => []
  | S k => if v =? 0 then [] else hexchar (v mod 16) :: hex_rev k (v / 16)
  end.

(** The conversion [%.<prec>X] of [printf]: upper-case hexadecimal with at
    least [prec] digits, zeros in front. *)
Definition fmt_X (prec : nat) (v : Z) : list ascii :=
  let ds := hex_rev 16 v in
  repeat "0"%char (prec - List.length ds) ++ rev ds.

(** [printf ("0x%.<prec>X\n", v)]. *)
Definition print_hex (prec : nat) (v : Z) : string :=
  ("0x" ++ string_of_list_ascii (fmt_X prec v) ++ nl)%string.

(** ** The machine the program runs on *)

(** What the run depends on: the page size of the system, whether
    [/dev/mem] can be opened (the [strerror] text when it cannot), whether
    a mapping of [size] bytes at device offset [off] succeeds, and the byte
    order of the processor. *)
Record env := {
  getpagesize : Z;
  open_error : option string;
  mmap_error : Z -> Z -> option string;
  big_endian : bool
}.

(** What is written to standard error. *)
Inductive message :=
  | MsgUsage                                    (* the usage text *)
  | MsgTooMany                                  (* Too many operations *)
  | MsgInvalid (arg : string)                   (* '%s' is invalid *)
  | MsgCantOpen (reason : string)               (* Can't open /dev/mem: %s *)
  | MsgCantMap (address : Z) (reason : string). (* Can't map address 0x%lX :%s *)

(** What the program does to the device. *)
Inductive event :=
  | EvOpen
  | EvMmap (size off : Z)
  | EvLoad (bytes : nat) (at_ : Z)
  | EvStore (bytes : nat) (at_ : Z) (v : Z)
  | EvMunmap (size : Z).

(** Physical memory by byte address, the two output streams, and the
    device accesses made so far. *)
Record world := {
  mem : Z -> Z;
  out : list string;
  err : list message;
  trace : list event
}.

Definition log (e : event) (w : world) : world :=
  {| mem := mem w; out := out w; err := err w; trace := trace w ++ [e] |}.

Definition printf (line : string) (w : world) : world :=
  {| mem := mem w; out := out w ++ [line]; err := err w; trace := trace w |}.

Definition eprintf (m : message) (w : world) : world :=
  {| mem := mem w; out := out w; err := err w ++ [m]; trace := trace w |}.

(** A value of [n] bytes in the byte order of the processor. *)
Definition encode (E : env) (n : nat) (v : Z) : list Z :=
  if big_endian E then rev (to_le n v) else to_le n v.

Definition decode (E : env) (bs : list Z) : Z :=
  if big_endian E then of_le (rev bs) else of_le bs.

(** The [n] bytes at [a]; a byte of memory holds eight bits. *)
Definition get_bytes (m : Z -> Z) (a : Z) (n : nat) : list Z :=
  List.map (fun i => m (a + Z.of_nat i) mod 256) (seq 0 n).

Definition put_bytes (m : Z -> Z) (a : Z) (bs : list Z) : Z -> Z :=
  fun x =>
    if (a <=? x) && (x <? a + Z.of_nat (List.length bs))
    then nth (Z.to_nat (x - a)) bs 0
    else m x.

(** [*(volatile uintN_t * ) address] with N = 8 [n]. *)
Definition load (E : env) (n : nat) (a : Z) (w : world) : Z * world :=
  (decode E (get_bytes (mem w) a n), log (EvLoad n a) w).

(** [*(uintN_t * ) address = v]: [v] is converted to the [n]-byte type. *)
Definition store (E : env) (n : nat) (a : Z) (v : Z) (w : world) : world :=
  log (EvStore n a (v mod 256 ^ Z.of_nat n))
    {| mem := put_bytes (mem w) a (encode E n v);
       out := out w; err := err w; trace := trace w |}.

(** ** The program *)

(** The two versions of [main]. *)
Inductive variant :=
  | Basic      (* src/mem.c *)
  | Extended.  (* src/unnamed/part_000 *)

Definition MAXOPS : nat := 256.
Definition PAGESIZE : Z := 4096.

Inductive optype := READ | WRITE | AND | OR | XOR.

(** An element of [OP].  The struct of src/mem.c has no [swap] member; its
    entries keep [swap] false. *)
Record entry := {
  operator : optype;
  width : Z;
  swap : bool;
  address : Z;
  data : Z
}.

Definition zero_entry : entry :=
  {| operator := READ; width := 0; swap := false; address := 0; data := 0 |}.

(** The variables of the parse loop: [width], [swap], [ops] and [OP]. *)
Record pstate := {
  cur_width : Z;
  cur_swap : bool;
  ops : nat;
  OP : list entry
}.

(** [OP[MAXOPS] = {0}], [width = 32, swap = 0, ops = 0]. *)
Definition initial : pstate :=
  {| cur_width := 32; cur_swap := false; ops := 0;
     OP := replicate MAXOPS zero_entry |}.

(** How a piece of [main] ends: it falls through with a value, it calls
    [die], or it does something C leaves undefined (an access past the end
    of [OP], a division by zero). *)
Inductive step (A : Type) :=
  | Next (a : A)
  | Die (m : message)
  | Undefined.
Arguments Next {A} a.
Arguments Die {A} m.
Arguments Undefined {A}.

(** [switch ( *arg)] at the head of the loop: the new [width] and [swap]
    when the first character of the token selects a mode. *)
Definition mode_switch (V : variant) (c : ascii) : option (Z * bool) :=
  if (c =? "b")%char then Some (8, false)
  else if (c =? "h")%char then Some (16, false)
  else if (c =? "w")%char then Some (32, false)
  else if (c =? "d")%char then Some (64, false)
  else
    match V with
    | Basic => None
    | Extended =>
        if (c =? "H")%char then Some (16, true)
        else if (c =? "W")%char then Some (32, true)
        else if (c =? "D")%char then Some (64, true)
        else None
    end.

(** [switch ( *p++)] after the address. *)
Inductive suffix :=
  | SufRead                            (* case 0: goto next *)
  | SufValue (o : optype) (p : string) (* break: a value follows at p *)
  | SufChoke.                          (* goto choke *)

Definition switch_operator (p : string) : suffix :=
  let c := peek p in
  let p := advance p in
  if (c =? NUL)%char then SufRead
  else if (c =? "&")%char then
    if (peek p =? "=")%char then SufValue AND (advance p) else SufChoke
  else if (c =? "^")%char then
    if (peek p =? "=")%char then SufValue XOR (advance p) else SufChoke
  else if (c =? "|")%char then
    if (peek p =? "=")%char then SufValue OR (advance p) else SufChoke
  else if (c =? "=")%char then SufValue WRITE p
  else SufChoke.

(** [if (swap) switch (width) { case 16: data = bswap_16 (data); ... }]. *)
Definition swap_data (sw : bool) (w : Z) (d : Z) : Z :=
  if sw then
    if w =? 16 then bswap 2 d
    else if w =? 32 then bswap 4 d
    else if w =? 64 then bswap 8 d
    else d
  else d.

(** The text of an operation token, as the loop body reads it: the
    address, the operator and, except for a read, the value as [strtoull]
    returns it; [None] where the loop jumps to [choke]. *)
Definition operation (arg : string) : option (optype * Z * option Z) :=
  let '(a, p) := strtoull arg in
  if same_ptr p arg then None
  else
    match switch_operator p with
    | SufChoke => None
    | SufRead => Some (READ, a, None)
    | SufValue o p =>
        if (peek p =? NUL)%char then None
        else
          let '(d, p) := strtoull p in
          if (peek p =? NUL)%char then Some (o, a, Some d) else None
    end.

(** [OP[ops]] once the loop body has assigned its members: [width] and
    [swap] from the current mode, [address] and [operator] from the token,
    and [data] from the value when there is one. *)
Definition fill (e : entry) (w : Z) (sw : bool) (o : optype) (a : Z)
  (v : option Z) : entry :=
  {| operator := o;
     width := w;
     swap := sw;
     address := a;
     data :=
       match v with
       | Some d => swap_data sw w d
       | None => data e
       end |}.

(** The body of the parse loop for one token.  The members of [OP[ops]]
    are assigned one by one in the source; a token that chokes ends the
    process, so the entry is written here once the token is read. *)
Definition parse_arg (V : variant) (st : pstate) (arg : string) : step pstate :=
  match mode_switch V (peek arg) with
  | Some (w, s) =>
      Next {| cur_width := w; cur_swap := s; ops := ops st; OP := OP st |}
  | None =>
      if (ops st =? MAXOPS)%nat then Die MsgTooMany
      else
        match OP st !! ops st with
        | None => Undefined
        | Some e =>
            match operation arg with
            | None => Die (MsgInvalid arg)
            | Some (o, a, v) =>
                Next {| cur_width := cur_width st; cur_swap := cur_swap st;
                        ops := S (ops st);
                        OP := <[ops st :=
                                 fill e (cur_width st) (cur_swap st) o a v]>
                                (OP st) |}
            end
        end
  end.

(** The parse loop over the tokens after the program name. *)
Fixpoint parse (V : variant) (st : pstate) (args : list string) : step pstate :=
  match args with
  | [] => Next st
  | arg :: rest =>
      match parse_arg V st arg with
      | Next st' => parse V st' rest
      | Die m => Die m
      | Undefined => Undefined
      end
  end.

(** [PAGESIZE] in src/mem.c, [getpagesize ()] in the other version. *)
Definition pagesize (V : variant) (E : env) : Z :=
  match V with
  | Basic => PAGESIZE
  | Extended => getpagesize E
  end.

(** [switch (OP[op].width)]: the size in bytes of the type the matching
    case accesses, none when no case matches. *)
Definition switch_width (w : Z) : option nat :=
  if w =? 8 then Some 1%nat
  else if w =? 16 then Some 2%nat
  else if w =? 32 then Some 4%nat
  else if w =? 64 then Some 8%nat
  else None.

(** What a read prints for the loaded [v]: the swapped version reverses
    the bytes of a 16, 32 or 64-bit datum when [OP[op].swap] is set. *)
Definition shown (V : variant) (e : entry) (n : nat) (v : Z) : Z :=
  match V with
  | Basic => v
  | Extended =>
      if (n =? 1)%nat then v
      else if swap e then bswap n v
      else v
  end.

(** [switch (OP[op].operator)] on the pointer [a]. *)
Definition access (V : variant) (E : env) (e : entry) (a : Z) (w : world)
  : world :=
  match switch_width (width e) with
  | None => w
  | Some n =>
      match operator e with
      | READ =>
          let '(v, w) := load E n a w in
          printf (print_hex (2 * n) (shown V e n v)) w
      | WRITE => store E n a (data e) w
      | AND => let '(v, w) := load E n a w in store E n a (Z.land v (data e)) w
      | OR => let '(v, w) := load E n a w in store E n a (Z.lor v (data e)) w
      | XOR => let '(v, w) := load E n a w in store E n a (Z.lxor v (data e)) w
      end
  end.

(** The arguments of [mmap] for an entry: [offset], [size] and the device
    offset. *)
Definition map_offset (ps : Z) (e : entry) : Z :=
  to_int (address e mod to_uint64 ps).

Definition map_size (ps : Z) (e : entry) : Z :=
  if to_int (map_offset ps e + width e / 8) >? ps
  then to_int (2 * ps)
  else ps.

Definition map_start (ps : Z) (e : entry) : Z :=
  to_off_t (to_uint64 (address e - map_offset ps e)).

(** The body of the perform loop for one entry. *)
Definition perform_op (V : variant) (E : env) (e : entry) (w : world)
  : step world :=
  let ps := pagesize V E in
  if to_uint64 ps =? 0 then Undefined
  else
    let offset := map_offset ps e in
    let size := map_size ps e in
    let off := map_start ps e in
    match mmap_error E (to_uint64 size) off with
    | Some reason => Die (MsgCantMap (address e) reason)
    | None =>
        let w := log (EvMmap (to_uint64 size) off) w in
        let w := access V E e (to_uint64 off + offset) w in
        Next (log (EvMunmap (to_uint64 size)) w)
    end.

(** How the process ends: [exit (status)], or undefined behaviour. *)
Inductive outcome :=
  | Exit (status : Z) (w : world)
  | Crash (w : world).

(** [for (op = ...; op < ops; op++)] with [todo] = [ops - op]. *)
Fixpoint perform (V : variant) (E : env) (OP : list entry) (op todo : nat)
  (w : world) : outcome :=
  match todo with
  | O => Exit 0 w
  | S todo' =>
      match OP !! op with
      | None => Crash w
      | Some e =>
          match perform_op V E e w with
          | Next w' => perform V E OP (S op) todo' w'
          | Die m => Exit 1 (eprintf m w)
          | Undefined => Crash w
          end
      end
  end.

(** [main]: [argv] starts with the program name. *)
Definition main (V : variant) (E : env) (argv : list string) (w : world)
  : outcome :=
  match parse V initial (List.tl argv) with
  | Die m => Exit 1 (eprintf m w)
  | Undefined => Crash w
  | Next st =>
      if (ops st =? 0)%nat then Exit 1 (eprintf MsgUsage w)
      else
        match open_error E with
        | Some reason => Exit 1 (eprintf (MsgCantOpen reason) w)
        | None => perform V E (OP st) 0 (ops st) (log EvOpen w)
        end
  end.

(** The parts of an outcome. *)
Definition final (o : outcome) : world :=
  match o with
  | Exit _ w => w
  | Crash w => w
  end.

Definition exit_status (o : outcome) : option Z :=
  match o with
  | Exit s _ => Some s
  | Crash _ => None
  end.

(** A machine to run examples on: pages of 4096 bytes, a little-endian
    processor, every [open] and [mmap] succeeds. *)
Definition pc : env :=
  {| getpagesize := 4096; open_error := None;
     mmap_error := fun _ _ => None; big_endian := false |}.

(** The same machine with pages of 16384 bytes. *)
Definition big_pages : env :=
  {| getpagesize := 16384; open_error := None;
     mmap_error := fun _ _ => None; big_endian := false |}.

(** A world with all of memory zero and nothing printed yet. *)
Definition boot : world :=
  {| mem := fun _ => 0; out := []; err := []; trace := [] |}.

(** ** The vocabulary of the specification *)

(** The mode tokens as the specification enumerates them: the single
    characters b h w d, and H W D where byte swapping exists. *)
Definition spec_mode (V : variant) (t : string) : option (Z * bool) :=
  if (t =? "b")%string then Some (8, false)
  else if (t =? "h")%string then Some (16, false)
  else if (t =? "w")%string then Some (32, false)
  else if (t =? "d")%string then Some (64, false)
  else
    match V with
    | Basic => None
    | Extended =>
        if (t =? "H")%string then Some (16, true)
        else if (t =? "W")%string then Some (32, true)
        else if (t =? "D")%string then Some (64, true)
        else None
    end.

(** A well-formed operation token: an address, then nothing or an operator
    and a value, as [operation] reads it. *)
Definition well_formed (t : string) : bool :=
  match operation t with
  | Some _ => true
  | None => false
  end.

(** An invalid token in the words of the specification: neither a mode
    token nor a well-formed operation token. *)
Definition spec_invalid (V : variant) (t : string) : bool :=
  match spec_mode V t with
  | Some _ => false
  | None => negb (well_formed t)
  end.

(** The mode in effect after the tokens [pre], in the words of the
    specification: the one of the last mode token among them, width 32
    unswapped when there is none. *)
Definition mode_in_effect (V : variant) (pre : list string) : Z * bool :=
  default (32, false) (last (omap (spec_mode V) pre)).

(** The tokens the parse loop takes for a mode: those whose first character
    is a mode character. *)
Definition is_mode (V : variant) (t : string) : bool :=
  match mode_switch V (peek t) with
  | Some _ => true
  | None => false
  end.

(** The number of tokens the parse loop does not take for a mode. *)
Definition count_ops (V : variant) (args : list string) : nat :=
  List.length (List.filter (fun t => negb (is_mode V t)) args).

(** An operand [x] applied to the old content [old] of the location. *)
Definition applied (o : optype) (old x : Z) : Z :=
  match o with
  | READ => old
  | WRITE => x
  | AND => Z.land old x
  | OR => Z.lor old x
  | XOR => Z.lxor old x
  end.

Definition is_read (e : entry) : bool :=
  match operator e with
  | READ => true
  | _ => false
  end.

(** The value of a string of upper-case hexadecimal digits, none when
    another character occurs. *)
Definition upper_hex (c : ascii) : option Z :=
  let n := code c in
  if (48 <=? n) && (n <=? 57) then Some (n - 48)
  else if (65 <=? n) && (n <=? 70) then Some (n - 55)
  else None.

Fixpoint hex_value (acc : Z) (ds : list ascii) : option Z :=
  match ds with
  | [] => Some acc
  | c :: r =>
      match upper_hex c with
      | Some d => hex_value (16 * acc + d) r
      | None => None
      end
  end.

(** A line of output for a datum of [w] bits holding [v]: [0x], then
    exactly [w / 4] upper-case hexadecimal digits that spell [v], then a
    newline. *)
Definition hex_line (w : Z) (v : Z) (line : string) : Prop :=
  exists ds : list ascii,
    line = ("0x" ++ string_of_list_ascii ds ++ nl)%string /\
    Z.of_nat (List.length ds) = w / 4 /\
    hex_value 0 ds = Some v.

(** The decimal numeral with the digits [ds], and its value. *)
Definition digit_ascii (d : Z) : ascii := ascii_of_N (Z.to_N (48 + d)).

Definition numeral (ds : list Z) : string :=
  string_of_list_ascii (List.map digit_ascii ds).

Definition decimal (ds : list Z) : Z :=
  fold_left (fun a d => a * 10 + d) ds 0.

(** A page size the perform loop can compute with: at least a datum long,
    and twice it fits an [int]. *)
Definition sane (E : env) : Prop := 8 <= getpagesize E < 2 ^ 30.

(** ** The parse loop seen as a list *)

(** The entries the loop appends for the tokens [args], in the order of
    the command line, starting in the mode [w], [sw]; it stops at a token
    that chokes. *)
Fixpoint entries (V : variant) (w : Z) (sw : bool) (args : list string)
  : list entry :=
  match args with
  | [] => []
  | arg :: rest =>
      match mode_switch V (peek arg) with
      | Some (w', sw') => entries V w' sw' rest
      | None =>
          match operation arg with
          | Some (o, a, v) => fill zero_entry w sw o a v :: entries V w sw rest
          | None => []
          end
      end
  end.

(** The mode after the tokens [args], starting from [m]. *)
Fixpoint mode_after (V : variant) (m : Z * bool) (args : list string)
  : Z * bool :=
  match args with
  | [] => m
  | arg :: rest =>
      match mode_switch V (peek arg) with
      | Some m' => mode_after V m' rest
      | None => mode_after V m rest
      end
  end.

(** What the loop keeps true of its variables: [OP] has [MAXOPS] elements,
    [ops] is an index into it or its length, the elements from [ops] on are
    still zero, and [width] is one of the four widths. *)
Definition inv (st : pstate) : Prop :=
  List.length (OP st) = MAXOPS /\
  (ops st <= MAXOPS)%nat /\
  (forall i, (ops st <= i)%nat -> (i < MAXOPS)%nat ->
             OP st !! i = Some zero_entry) /\
  switch_width (cur_width st) <> None.

(** A token the loop accepts: a mode, or an operation it can read. *)
Definition acceptable (V : variant) (t : string) : bool :=
  is_mode V t || well_formed t.

(** The first claim as the specification words it: the process ends with
    a non-zero status, the only thing it has done is to print a token of
    the command line that is invalid. *)
Definition dies_on_invalid_token (V : variant) (E : env)
  (argv : list string) (w : world) : Prop :=
  exists (s : Z) (t : string),
    main V E argv w = Exit s (eprintf (MsgInvalid t) w) /\
    s <> 0 /\ In t (List.tl argv) /\ spec_invalid V t = true.

(** Split the conjunctions of the goal, leaving definitions folded. *)
Ltac conj := repeat match goal with |- _ /\ _ => split end.

(** ** The perform loop seen as a list *)

(** The perform loop over the entries [es], one after the other. *)
Fixpoint run (V : variant) (E : env) (es : list entry) (w : world) : outcome :=
  match es with
  | [] => Exit 0 w
  | e :: rest =>
      match perform_op V E e w with
      | Next w' => run V E rest w'
      | Die m => Exit 1 (eprintf m w)
      | Undefined => Crash w
      end
  end.

(** The spelling of an operator in a token. *)
Definition symbol (o : optype) : string :=
  match o with
  | READ => ""
  | WRITE => "="
  | AND => "&="
  | OR => "|="
  | XOR => "^="
  end.

(** The device accesses of one turn of the perform loop for the entry [e]
    with pages of [ps] bytes: one mapping, the load and the store of the
    operator on the datum at the address of [e], one unmapping of the same
    size. *)
Definition block_of (ps : Z) (e : entry) (b : list event) : Prop :=
  exists (n : nat) (accs : list event),
    switch_width (width e) = Some n /\
    b = EvMmap (map_size ps e) (map_start ps e) :: accs
        ++ [EvMunmap (map_size ps e)] /\
    match operator e with
    | READ => accs = [EvLoad n (address e)]
    | WRITE => exists v, accs = [EvStore n (address e) v]
    | _ => exists v, accs = [EvLoad n (address e); EvStore n (address e) v]
    end.

(** The byte [x] belongs to the datum of the entry [e]. *)
Definition in_datum (e : entry) (x : Z) : Prop :=
  address e <= x < address e + width e / 8.

(** Two worlds that differ at most in the record of device accesses. *)
Definition same_io (w w' : world) : Prop :=
  mem w = mem w' /\ out w = out w' /\ err w = err w'.

(** A machine on which the page at 0x2000 cannot be mapped. *)
Definition guarded : env :=
  {| getpagesize := 4096; open_error := None;
     mmap_error := fun _ off => if off =? 8192 then Some "EPERM" else None;
     big_endian := false |}.

(** A machine on which [/dev/mem] cannot be opened. *)
Definition unprivileged : env :=
  {| getpagesize := 4096; open_error := Some "Permission denied";
     mmap_error := fun _ _ => None; big_endian := false |}.

(** The same machine with a processor of the other byte order. *)
Definition other_order (E : env) : env :=
  {| getpagesize := getpagesize E; open_error := open_error E;
     mmap_error := mmap_error E; big_endian := negb (big_endian E) |}.

(** * Properties *)

Example strtoull_hex : strtoull "0x1000=0xFF" = (4096, "=0xFF").
Proof. reflexivity. Qed.

Example strtoull_octal : strtoull "017|=1" = (15, "|=1").
Proof. reflexivity. Qed.

Example strtoull_bare_0x : strtoull "0x" = (0, "x").
Proof. reflexivity. Qed.

Example strtoull_none : strtoull "not_a_number" = (0, "not_a_number").
Proof. reflexivity. Qed.

Example strtoull_saturates :
  strtoull "18446744073709551616" = (ULLONG_MAX, "").
Proof. reflexivity. Qed.

Example bswap_32_example : bswap 4 305419896 (* 0x12345678 *) = 2018915346.
Proof. reflexivity. Qed.

Example print_hex_example : print_hex 8 255 = ("0x000000FF" ++ nl)%string.
Proof. reflexivity. Qed.

(** ** Bytes *)

Lemma to_le_length (n : nat) (v : Z) : List.length (to_le n v) = n.
Proof.
  revert v; induction n as [|n IH]; intros v; simpl; [reflexivity|].
  now rewrite IH.
Qed.

Lemma to_le_bytes (n : nat) (v : Z) :
  Forall (fun b => 0 <= b < 256) (to_le n v).
Proof.
  revert v; induction n as [|n IH]; intros v; simpl; constructor.
  - apply Z.mod_pos_bound; lia.
  - apply IH.
Qed.

Lemma of_le_to_le (n : nat) (v : Z) :
  of_le (to_le n v) = v mod 256 ^ Z.of_nat n.
Proof.
  revert v; induction n as [|n IH]; intros v.
  - simpl. now rewrite Z.mod_1_r.
  - cbn [to_le of_le]. rewrite IH.
    rewrite Nat2Z.inj_succ, Z.pow_succ_r by lia.
    rewrite Z.rem_mul_r by (try apply Z.pow_pos_nonneg; lia).
    reflexivity.
Qed.

Lemma to_le_of_le (bs : list Z) :
  Forall (fun b => 0 <= b < 256) bs ->
  to_le (List.length bs) (of_le bs) = bs.
Proof.
  induction 1 as [|b bs Hb _ IH]; [reflexivity|].
  cbn [List.length to_le of_le].
  replace (b + 256 * of_le bs) with (b + of_le bs * 256) by lia.
  rewrite Z_mod_plus_full, Z.div_add by lia.
  rewrite Z.mod_small, Z.div_small by lia.
  now rewrite Z.add_0_l, IH.
Qed.

Lemma of_le_range (bs : list Z) :
  Forall (fun b => 0 <= b < 256) bs ->
  0 <= of_le bs < 256 ^ Z.of_nat (List.length bs).
Proof.
  induction 1 as [|b bs Hb _ IH]; [simpl; lia|].
  cbn [List.length of_le].
  rewrite Nat2Z.inj_succ, Z.pow_succ_r by lia. lia.
Qed.

Lemma to_le_mod (n : nat) (v : Z) :
  to_le n (v mod 256 ^ Z.of_nat n) = to_le n v.
Proof.
  rewrite <- of_le_to_le.
  rewrite <- (to_le_length n v) at 1.
  apply to_le_of_le, to_le_bytes.
Qed.

Lemma bswap_range (n : nat) (v : Z) : 0 <= bswap n v < 256 ^ Z.of_nat n.
Proof.
  unfold bswap.
  pose proof (of_le_range (rev (to_le n v))) as H.
  rewrite length_rev, to_le_length in H.
  apply H, Forall_rev, to_le_bytes.
Qed.

Lemma to_le_bswap (n : nat) (v : Z) : to_le n (bswap n v) = rev (to_le n v).
Proof.
  unfold bswap.
  rewrite <- (to_le_length n v) at 1. rewrite <- length_rev.
  apply to_le_of_le, Forall_rev, to_le_bytes.
Qed.

(** Swapping twice gives back the datum. *)
Lemma bswap_bswap (n : nat) (v : Z) :
  bswap n (bswap n v) = v mod 256 ^ Z.of_nat n.
Proof.
  unfold bswap at 1. rewrite to_le_bswap, rev_involutive.
  apply of_le_to_le.
Qed.

Lemma decode_encode (E : env) (n : nat) (v : Z) :
  decode E (encode E n v) = v mod 256 ^ Z.of_nat n.
Proof.
  unfold decode, encode. destruct (big_endian E).
  - rewrite rev_involutive. apply of_le_to_le.
  - apply of_le_to_le.
Qed.

Lemma encode_length (E : env) (n : nat) (v : Z) :
  List.length (encode E n v) = n.
Proof.
  unfold encode. destruct (big_endian E);
    now rewrite ?length_rev, to_le_length.
Qed.

Lemma encode_mod (E : env) (n : nat) (v : Z) :
  encode E n (v mod 256 ^ Z.of_nat n) = encode E n v.
Proof. unfold encode. now rewrite to_le_mod. Qed.

Lemma decode_range (E : env) (bs : list Z) :
  Forall (fun b => 0 <= b < 256) bs ->
  0 <= decode E bs < 256 ^ Z.of_nat (List.length bs).
Proof.
  intros H. unfold decode. destruct (big_endian E).
  - rewrite <- length_rev. apply of_le_range, Forall_rev, H.
  - apply of_le_range, H.
Qed.

Lemma get_bytes_range (m : Z -> Z) (a : Z) (n : nat) :
  Forall (fun b => 0 <= b < 256) (get_bytes m a n).
Proof.
  unfold get_bytes. apply List.Forall_forall. intros b Hb.
  apply in_map_iff in Hb. destruct Hb as (i & <- & _).
  apply Z.mod_pos_bound. lia.
Qed.

Lemma get_bytes_length (m : Z -> Z) (a : Z) (n : nat) :
  List.length (get_bytes m a n) = n.
Proof. unfold get_bytes. now rewrite length_map, length_seq. Qed.

(** Reading back the bytes just put. *)
Lemma get_put_bytes (m : Z -> Z) (a : Z) (bs : list Z) :
  Forall (fun b => 0 <= b < 256) bs ->
  get_bytes (put_bytes m a bs) a (List.length bs) = bs.
Proof.
  intros Hbs. unfold get_bytes.
  apply nth_ext with (d := 0) (d' := 0).
  - now rewrite length_map, length_seq.
  - intros i Hi. rewrite length_map, length_seq in Hi.
    rewrite (nth_indep _ 0 (put_bytes m a bs (a + Z.of_nat 0) mod 256))
      by now rewrite length_map, length_seq.
    rewrite (map_nth (fun i => put_bytes m a bs (a + Z.of_nat i) mod 256)).
    rewrite seq_nth by exact Hi. cbn [Nat.add].
    unfold put_bytes.
    replace ((a <=? a + Z.of_nat i)
               && (a + Z.of_nat i <? a + Z.of_nat (List.length bs)))
      with true by (symmetry; apply andb_true_iff; split; lia).
    replace (Z.to_nat (a + Z.of_nat i - a)) with i by lia.
    apply Z.mod_small.
    apply (proj1 (List.Forall_forall _ bs) Hbs). now apply nth_In.
Qed.

Lemma encode_bytes (E : env) (n : nat) (v : Z) :
  Forall (fun b => 0 <= b < 256) (encode E n v).
Proof.
  unfold encode. destruct (big_endian E);
    [apply Forall_rev|]; apply to_le_bytes.
Qed.

(** A datum read back from where it was stored. *)
Lemma load_after_store (E : env) (m : Z -> Z) (a : Z) (n : nat) (v : Z) :
  decode E (get_bytes (put_bytes m a (encode E n v)) a n) =
  v mod 256 ^ Z.of_nat n.
Proof.
  rewrite <- (encode_length E n v) at 2.
  rewrite get_put_bytes by apply encode_bytes.
  apply decode_encode.
Qed.

Lemma loaded_range (E : env) (m : Z -> Z) (a : Z) (n : nat) :
  0 <= decode E (get_bytes m a n) < 256 ^ Z.of_nat n.
Proof.
  pose proof (decode_range E _ (get_bytes_range m a n)) as H.
  now rewrite get_bytes_length in H.
Qed.

(** ** Bit operations and truncation *)

Lemma land_trunc (k a b : Z) :
  0 <= k -> Z.land a b mod 2 ^ k = Z.land a (b mod 2 ^ k).
Proof.
  intros Hk. rewrite <- !Z.land_ones by exact Hk.
  now rewrite Z.land_assoc.
Qed.

Lemma lor_trunc (k a b : Z) :
  0 <= k -> Z.lor a b mod 2 ^ k = Z.lor (a mod 2 ^ k) (b mod 2 ^ k).
Proof.
  intros Hk. rewrite <- !Z.land_ones by exact Hk.
  apply Z.land_lor_distr_l.
Qed.

Lemma lxor_trunc (k a b : Z) :
  0 <= k -> Z.lxor a b mod 2 ^ k = Z.lxor (a mod 2 ^ k) (b mod 2 ^ k).
Proof.
  intros Hk. rewrite <- !Z.land_ones by exact Hk.
  apply Z.bits_inj'. intros i Hi.
  rewrite !Z.land_spec, !Z.lxor_spec, !Z.land_spec.
  destruct (Z.testbit a i), (Z.testbit b i), (Z.testbit (Z.ones k) i);
    reflexivity.
Qed.

(** What an operator stores depends on the operand only through its low
    bits. *)
Lemma applied_trunc (o : optype) (k old x : Z) :
  0 <= k ->
  applied o old x mod 2 ^ k = applied o old (x mod 2 ^ k) mod 2 ^ k.
Proof.
  intros Hk. destruct o; cbn [applied].
  - reflexivity.
  - now rewrite Z.mod_mod by (apply Z.pow_nonzero; lia).
  - rewrite !land_trunc by exact Hk.
    now rewrite Z.mod_mod by (apply Z.pow_nonzero; lia).
  - rewrite !lor_trunc by exact Hk.
    now rewrite Z.mod_mod by (apply Z.pow_nonzero; lia).
  - rewrite !lxor_trunc by exact Hk.
    now rewrite Z.mod_mod by (apply Z.pow_nonzero; lia).
Qed.

(** ** Hexadecimal output *)

Lemma upper_hex_hexchar (d : Z) : 0 <= d < 16 -> upper_hex (hexchar d) = Some d.
Proof.
  intros H.
  assert (Hn : (Z.to_nat d < 16)%nat) by lia.
  rewrite <- (Z2Nat.id d) by lia.
  generalize dependent (Z.to_nat d). intros n Hn.
  do 16 (destruct n as [|n]; [reflexivity|]). lia.
Qed.

Lemma hex_value_app (l1 l2 : list ascii) (acc : Z) :
  hex_value acc (l1 ++ l2) =
  match hex_value acc l1 with
  | Some a => hex_value a l2
  | None => None
  end.
Proof.
  revert acc; induction l1 as [|c l1 IH]; intros acc; cbn [app hex_value].
  - reflexivity.
  - destruct (upper_hex c); [apply IH|reflexivity].
Qed.

Lemma hex_value_zeros (n : nat) : hex_value 0 (repeat "0"%char n) = Some 0.
Proof.
  induction n as [|n IH]; [reflexivity|].
  cbn [repeat hex_value].
  change (upper_hex "0") with (Some 0). exact IH.
Qed.

Lemma hex_rev_value (fuel : nat) (v : Z) :
  0 <= v < 16 ^ Z.of_nat fuel ->
  hex_value 0 (rev (hex_rev fuel v)) = Some v.
Proof.
  revert v; induction fuel as [|fuel IH]; intros v Hv.
  - cbn in *. f_equal. lia.
  - cbn [hex_rev]. destruct (Z.eqb_spec v 0) as [->|Hnz]; [reflexivity|].
    rewrite Nat2Z.inj_succ, Z.pow_succ_r in Hv by lia.
    cbn [rev]. rewrite hex_value_app, IH.
    + cbn [hex_value].
      rewrite upper_hex_hexchar by (apply Z.mod_pos_bound; lia).
      f_equal. symmetry. apply Z.div_mod. lia.
    + split; [apply Z.div_pos; lia|].
      apply Z.div_lt_upper_bound; lia.
Qed.

Lemma hex_rev_length (fuel k : nat) (v : Z) :
  0 <= v < 16 ^ Z.of_nat k -> (List.length (hex_rev fuel v) <= k)%nat.
Proof.
  revert k v; induction fuel as [|fuel IH]; intros k v Hv; cbn [hex_rev].
  - cbn. lia.
  - destruct (Z.eqb_spec v 0) as [->|Hnz]; [cbn; lia|].
    destruct k as [|k]; [cbn in Hv; lia|].
    rewrite Nat2Z.inj_succ, Z.pow_succ_r in Hv by lia.
    cbn [List.length]. apply le_n_S, IH.
    split; [apply Z.div_pos; lia|].
    apply Z.div_lt_upper_bound; lia.
Qed.

(** A value of [k] hexadecimal digits is printed as exactly these digits. *)
Lemma print_hex_line (k : nat) (v : Z) :
  (k <= 16)%nat -> 0 <= v < 16 ^ Z.of_nat k ->
  hex_line (4 * Z.of_nat k) v (print_hex k v).
Proof.
  intros Hk Hv. exists (fmt_X k v). split; [reflexivity|].
  pose proof (hex_rev_length 16 k v Hv) as Hlen.
  unfold fmt_X. split.
  - rewrite length_app, repeat_length, length_rev.
    rewrite Z.mul_comm, Z.div_mul by lia. lia.
  - rewrite hex_value_app, hex_value_zeros.
    apply hex_rev_value. split; [lia|].
    apply Z.lt_le_trans with (16 ^ Z.of_nat k); [lia|].
    apply Z.pow_le_mono_r; lia.
Qed.

(** ** The parse loop *)

Lemma mode_switch_width (V : variant) (c : ascii) (w : Z) (s : bool) :
  mode_switch V c = Some (w, s) -> switch_width w <> None.
Proof.
  unfold mode_switch. intros H.
  repeat match type of H with
         | (if ?b then _ else _) = _ => destruct b
         | match ?v with Basic => _ | Extended => _ end = _ => destruct v
         end;
    inversion H; subst; vm_compute; discriminate.
Qed.

Lemma initial_inv : inv initial.
Proof.
  unfold inv, initial; cbn [OP ops cur_width].
  split; [apply length_replicate|].
  split; [unfold MAXOPS; lia|].
  split; [|vm_compute; discriminate].
  intros i _ Hi. now apply lookup_replicate_2.
Qed.

(** The loop body on a token that is not a mode. *)
Lemma parse_arg_op (V : variant) (st : pstate) (arg : string) :
  inv st -> mode_switch V (peek arg) = None ->
  parse_arg V st arg =
  if (ops st =? MAXOPS)%nat then Die MsgTooMany
  else
    match operation arg with
    | None => Die (MsgInvalid arg)
    | Some (o, a, v) =>
        Next {| cur_width := cur_width st; cur_swap := cur_swap st;
                ops := S (ops st);
                OP := <[ops st :=
                         fill zero_entry (cur_width st) (cur_swap st) o a v]>
                        (OP st) |}
    end.
Proof.
  intros (Hlen & Hle & Hzero & _) Hm. unfold parse_arg. rewrite Hm.
  destruct (Nat.eqb_spec (ops st) MAXOPS) as [|Hne]; [reflexivity|].
  rewrite Hzero by lia. reflexivity.
Qed.

Lemma parse_arg_inv (V : variant) (st st' : pstate) (arg : string) :
  inv st -> parse_arg V st arg = Next st' -> inv st'.
Proof.
  intros Hinv H.
  destruct (mode_switch V (peek arg)) as [[w s]|] eqn:Hm.
  - unfold parse_arg in H. rewrite Hm in H. inversion H; subst; clear H.
    destruct Hinv as (Hlen & Hle & Hzero & _).
    unfold inv; conj; cbn [OP ops cur_width]; auto.
    eapply mode_switch_width, Hm.
  - rewrite parse_arg_op in H by assumption.
    destruct Hinv as (Hlen & Hle & Hzero & Hw).
    destruct (Nat.eqb_spec (ops st) MAXOPS) as [|Hne]; [discriminate|].
    destruct (operation arg) as [[[o a] v]|]; [|discriminate].
    inversion H; subst; clear H.
    unfold inv; conj; cbn [OP ops cur_width]; auto.
    + now rewrite length_insert.
    + lia.
    + intros i Hi Hi'. rewrite list_lookup_insert_ne by lia.
      apply Hzero; lia.
Qed.

Lemma parse_arg_defined (V : variant) (st : pstate) (arg : string) :
  inv st -> parse_arg V st arg <> Undefined.
Proof.
  intros Hinv.
  destruct (mode_switch V (peek arg)) as [[w s]|] eqn:Hm.
  - unfold parse_arg. rewrite Hm. discriminate.
  - rewrite parse_arg_op by assumption.
    destruct (ops st =? MAXOPS)%nat; [discriminate|].
    destruct (operation arg) as [[[o a] v]|]; discriminate.
Qed.

(** The loop never leaves the array. *)
Lemma parse_defined (V : variant) (args : list string) (st : pstate) :
  inv st -> parse V st args <> Undefined.
Proof.
  revert st; induction args as [|arg rest IH]; intros st Hinv; cbn [parse].
  - discriminate.
  - destruct (parse_arg V st arg) as [st'| |] eqn:Harg.
    + eapply IH, parse_arg_inv; eassumption.
    + discriminate.
    + now apply parse_arg_defined in Harg.
Qed.

Lemma parse_app (V : variant) (l1 l2 : list string) (st : pstate) :
  parse V st (l1 ++ l2) =
  match parse V st l1 with
  | Next st' => parse V st' l2
  | Die m => Die m
  | Undefined => Undefined
  end.
Proof.
  revert st; induction l1 as [|arg l1 IH]; intros st; cbn [app parse].
  - reflexivity.
  - destruct (parse_arg V st arg); auto.
Qed.

Lemma count_ops_cons (V : variant) (t : string) (args : list string) :
  count_ops V (t :: args) =
  if is_mode V t then count_ops V args else S (count_ops V args).
Proof.
  unfold count_ops. cbn [List.filter]. now destruct (is_mode V t).
Qed.

Lemma count_ops_app (V : variant) (l1 l2 : list string) :
  count_ops V (l1 ++ l2) = (count_ops V l1 + count_ops V l2)%nat.
Proof. unfold count_ops. now rewrite List.filter_app, length_app. Qed.

(** A run of the loop that reaches its end: the invariant holds, every
    token that is not a mode has been counted, the entries are those of
    the tokens in their order, and the mode is the one of the last mode
    token. *)
Lemma parse_Next (V : variant) (args : list string) (st st' : pstate) :
  inv st -> parse V st args = Next st' ->
  inv st' /\
  ops st' = (ops st + count_ops V args)%nat /\
  take (ops st') (OP st') =
    take (ops st) (OP st) ++ entries V (cur_width st) (cur_swap st) args /\
  (cur_width st', cur_swap st') =
    mode_after V (cur_width st, cur_swap st) args.
Proof.
  revert st; induction args as [|arg rest IH]; intros st Hinv H;
    cbn [parse] in H.
  - inversion H; subst. cbn [entries mode_after].
    rewrite app_nil_r. unfold count_ops; cbn. conj; auto.
  - destruct (parse_arg V st arg) as [st1| |] eqn:Harg; try discriminate.
    pose proof (parse_arg_inv _ _ _ _ Hinv Harg) as Hinv1.
    destruct (IH _ Hinv1 H) as (Hinv' & Hops & Htake & Hmode).
    rewrite count_ops_cons. cbn [entries mode_after]. unfold is_mode.
    destruct (mode_switch V (peek arg)) as [[w s]|] eqn:Hm.
    + unfold parse_arg in Harg. rewrite Hm in Harg.
      inversion Harg; subst; clear Harg.
      cbn [ops OP cur_width cur_swap] in *. conj; auto.
    + rewrite parse_arg_op in Harg by assumption.
      destruct Hinv as (Hlen & Hle & Hzero & Hw).
      destruct (Nat.eqb_spec (ops st) MAXOPS) as [|Hne]; [discriminate|].
      destruct (operation arg) as [[[o a] v]|]; [|discriminate].
      inversion Harg; subst; clear Harg.
      cbn [ops OP cur_width cur_swap] in *.
      conj; auto; [lia|].
      rewrite Htake.
      rewrite (take_S_r _ _ (fill zero_entry (cur_width st) (cur_swap st) o a v))
        by (apply list_lookup_insert_eq; lia).
      rewrite take_insert_ge by lia.
      now rewrite <- app_assoc.
Qed.

(** On acceptable tokens the loop ends normally unless a 257th operation
    turns up. *)
Lemma parse_acceptable (V : variant) (args : list string) (st : pstate) :
  inv st -> Forall (fun t => acceptable V t = true) args ->
  if (ops st + count_ops V args <=? MAXOPS)%nat
  then exists st', parse V st args = Next st'
  else parse V st args = Die MsgTooMany.
Proof.
  revert st; induction args as [|arg rest IH]; intros st Hinv Hacc.
  - unfold count_ops; cbn. destruct Hinv as (_ & Hle & _).
    destruct (Nat.leb_spec (ops st + 0) MAXOPS); [eauto|lia].
  - inversion Hacc as [|? ? Harg Hrest]; subst.
    rewrite count_ops_cons. cbn [parse].
    unfold acceptable, is_mode, well_formed in *.
    destruct (mode_switch V (peek arg)) as [[w s]|] eqn:Hm.
    + assert (Hstep : parse_arg V st arg = Next
                {| cur_width := w; cur_swap := s; ops := ops st; OP := OP st |})
        by (unfold parse_arg; now rewrite Hm).
      rewrite Hstep.
      apply (IH _ (parse_arg_inv _ _ _ _ Hinv Hstep) Hrest).
    + rewrite parse_arg_op by assumption.
      destruct (Nat.eqb_spec (ops st) MAXOPS) as [Heq|Hne].
      * destruct (Nat.leb_spec (ops st + S (count_ops V rest)) MAXOPS);
          [lia|reflexivity].
      * destruct (operation arg) as [[[o a] v]|] eqn:Hop;
          [|cbn in Harg; discriminate].
        assert (Hstep : parse_arg V st arg = Next
          {| cur_width := cur_width st; cur_swap := cur_swap st;
             ops := S (ops st);
             OP := <[ops st :=
                      fill zero_entry (cur_width st) (cur_swap st) o a v]>
                     (OP st) |}).
        { rewrite parse_arg_op by assumption.
          destruct (Nat.eqb_spec (ops st) MAXOPS); [contradiction|].
          now rewrite Hop. }
        specialize (IH _ (parse_arg_inv _ _ _ _ Hinv Hstep) Hrest).
        cbn [ops] in IH.
        replace (ops st + S (count_ops V rest))%nat
          with (S (ops st) + count_ops V rest)%nat by lia.
        exact IH.
Qed.

(** ** Parse errors *)

(** C1, as stated, fails: after 256 operations an invalid token is not
    printed, the process ends with "Too many operations" instead. *)
Lemma invalid_token_after_256_operations_not_printed :
  let argv := "mem" :: repeat "0" 256 ++ ["zz"] in
  (exists t, In t (List.tl argv) /\ spec_invalid Basic t = true) /\
  ~ dies_on_invalid_token Basic pc argv boot.
Proof.
  split.
  - exists "zz". split; [|reflexivity].
    cbn [List.tl]. apply in_or_app. right. now left.
  - intros (s & t & H & _). vm_compute in H. discriminate H.
Qed.

(** C1, amended: a token that neither starts with a mode character nor
    reads as an operation ends the process with status 1 before the device
    is opened or anything else is done; what is printed is that token when
    fewer than 256 operations precede it, and "Too many operations"
    otherwise.  Here [t] is the first such token of the command line. *)
Theorem invalid_token_is_fatal (V : variant) (E : env) (prog : string)
  (pre : list string) (t : string) (post : list string) (w : world) :
  Forall (fun s => acceptable V s = true) pre ->
  is_mode V t = false ->
  well_formed t = false ->
  main V E (prog :: pre ++ t :: post) w =
  Exit 1 (eprintf (if (count_ops V pre <? MAXOPS)%nat
                   then MsgInvalid t else MsgTooMany) w).
Proof.
  intros Hpre Hmode Hwf. unfold main. cbn [List.tl]. rewrite parse_app.
  pose proof (parse_acceptable V pre initial initial_inv Hpre) as Hrun.
  cbn [ops initial] in Hrun. rewrite Nat.add_0_l in Hrun.
  destruct (Nat.leb_spec (count_ops V pre) MAXOPS) as [Hle|Hgt].
  - destruct Hrun as (st & Hst). rewrite Hst.
    destruct (parse_Next V pre initial st initial_inv Hst)
      as (Hinv & Hops & _ & _).
    cbn [ops initial] in Hops. rewrite Nat.add_0_l in Hops.
    cbn [parse]. rewrite parse_arg_op; [|exact Hinv|].
    + rewrite Hops.
      destruct (Nat.eqb_spec (count_ops V pre) MAXOPS) as [Heq|Hne].
      * destruct (Nat.ltb_spec (count_ops V pre) MAXOPS); [lia|reflexivity].
      * destruct (Nat.ltb_spec (count_ops V pre) MAXOPS); [|lia].
        unfold well_formed in Hwf.
        destruct (operation t) as [[[o a] v]|]; [discriminate|reflexivity].
    + unfold is_mode in Hmode.
      destruct (mode_switch V (peek t)); [discriminate|reflexivity].
  - rewrite Hrun.
    destruct (Nat.ltb_spec (count_ops V pre) MAXOPS); [lia|reflexivity].
Qed.

Lemma invalid_token_is_fatal_witness :
  main Extended pc ["mem"; "W"; "0x1000=1"; "0x1000^1"; "0x2000=2"] boot =
  Exit 1 (eprintf (MsgInvalid "0x1000^1") boot).
Proof.
  apply (invalid_token_is_fatal Extended pc "mem" ["W"; "0x1000=1"]
           "0x1000^1" ["0x2000=2"] boot).
  - repeat constructor.
  - reflexivity.
  - reflexivity.
Defined.

(** C3 fails on the code: a token is taken for a mode as soon as its first
    character is a mode character.  ["bogus"] is neither a mode token nor
    an operation, yet it selects the 8-bit mode and the run goes on to read
    a byte and exit with status 0. *)
Theorem mode_prefix_taken_for_mode (V : variant) :
  spec_invalid V "bogus" = true /\
  let o := main V pc ["mem"; "bogus"; "0x1000"] boot in
  exit_status o = Some 0 /\
  err (final o) = [] /\
  out (final o) = [print_hex 2 0] /\
  trace (final o) =
    [EvOpen; EvMmap 4096 4096; EvLoad 1 4096; EvMunmap 4096].
Proof. destruct V; vm_compute; auto. Qed.

(** ** The bound on the operation list *)

(** C8: the loop never writes past the end of [OP]: whatever the command
    line, it does not leave the array, and each entry it appends goes to an
    index below [MAXOPS]; at its end at most [MAXOPS] operations are
    listed.  A command line with more than [MAXOPS] tokens that are not
    modes ends the process with status 1 before the device is opened; the
    message is "Too many operations" when the tokens are otherwise
    acceptable. *)
Theorem operation_list_is_bounded (V : variant) (E : env)
  (argv : list string) (w : world) :
  parse V initial (List.tl argv) <> Undefined /\
  (forall pre arg st st',
      parse V initial pre = Next st ->
      parse_arg V st arg = Next st' ->
      ops st' <> ops st ->
      (ops st < MAXOPS)%nat /\ List.length (OP st) = MAXOPS /\
      OP st' = <[ops st := default zero_entry (OP st' !! ops st)]> (OP st)) /\
  (forall st,
      parse V initial (List.tl argv) = Next st ->
      (ops st <= MAXOPS)%nat /\ ops st = count_ops V (List.tl argv)) /\
  ((MAXOPS < count_ops V (List.tl argv))%nat ->
   exists m,
     main V E argv w = Exit 1 (eprintf m w) /\
     (Forall (fun t => acceptable V t = true) (List.tl argv) ->
      m = MsgTooMany)).
Proof.
  conj.
  - apply parse_defined, initial_inv.
  - intros pre arg st st' Hpre Harg Hne.
    destruct (parse_Next V pre initial st initial_inv Hpre)
      as (Hinv & _ & _ & _).
    destruct (mode_switch V (peek arg)) as [[m s]|] eqn:Hm.
    + unfold parse_arg in Harg. rewrite Hm in Harg.
      inversion Harg; subst. now cbn in Hne.
    + rewrite parse_arg_op in Harg by assumption.
      destruct Hinv as (Hlen & Hle & _ & _).
      destruct (Nat.eqb_spec (ops st) MAXOPS) as [|Hlt]; [discriminate|].
      destruct (operation arg) as [[[o a] v]|]; [|discriminate].
      inversion Harg; subst; clear Harg. cbn [OP ops].
      conj; [lia|exact Hlen|].
      now rewrite list_lookup_insert_eq by lia.
  - intros st Hst.
    destruct (parse_Next V _ initial st initial_inv Hst)
      as ((_ & Hle & _ & _) & Hops & _ & _).
    split; [exact Hle|exact Hops].
  - intros Hmany. unfold main.
    destruct (parse V initial (List.tl argv)) as [st|m|] eqn:Hparse.
    + destruct (parse_Next V _ initial st initial_inv Hparse)
        as ((_ & Hle & _ & _) & Hops & _ & _).
      cbn [ops initial] in Hops. lia.
    + exists m. split; [reflexivity|]. intros Hacc.
      pose proof (parse_acceptable V _ initial initial_inv Hacc) as Hrun.
      cbn [ops initial] in Hrun. rewrite Nat.add_0_l in Hrun.
      destruct (Nat.leb_spec (count_ops V (List.tl argv)) MAXOPS); [lia|].
      congruence.
    + now apply (parse_defined V _ initial initial_inv) in Hparse.
Qed.

Lemma operation_list_is_bounded_witness :
  exists m,
    main Basic pc ("mem" :: repeat "0" 257) boot = Exit 1 (eprintf m boot) /\
    m = MsgTooMany.
Proof.
  destruct (operation_list_is_bounded Basic pc ("mem" :: repeat "0" 257) boot)
    as (_ & _ & _ & H).
  destruct H as (m & Hm & Hacc).
  - apply Nat.ltb_lt. vm_compute. reflexivity.
  - exists m. split; [exact Hm|].
    apply Hacc. apply List.Forall_forall. intros t Ht.
    apply repeat_spec in Ht. subst t. reflexivity.
Defined.

(** ** Modes *)

(** No conversion where the token starts with a character that is neither
    white space, a sign nor a decimal digit. *)
Lemma strtoull_no_digit (c : ascii) (r : string) :
  isspace c = false ->
  (c =? "-")%char = false ->
  (c =? "+")%char = false ->
  (c =? "0")%char = false ->
  digit_in 10 c = None ->
  strtoull (String c r) = (0, String c r).
Proof.
  intros Hsp Hminus Hplus Hzero Hdigit.
  unfold strtoull. cbn [skip_space]. rewrite Hsp.
  unfold scan_sign. cbn [peek]. rewrite Hminus, Hplus.
  unfold scan_base. cbn [peek]. rewrite Hzero.
  cbv beta iota. cbn [peek]. rewrite Hdigit.
  reflexivity.
Qed.

(** A token that starts with a mode character does not read as an
    operation. *)
Lemma mode_not_operation (V : variant) (t : string) (m : Z * bool) :
  mode_switch V (peek t) = Some m -> operation t = None.
Proof.
  destruct t as [|c r]; [destruct V; discriminate|].
  cbn [peek]. unfold mode_switch. intros H.
  assert (Hsame : same_ptr (String c r) (String c r) = true)
    by apply Nat.eqb_refl.
  repeat match type of H with
         | (if (?a =? ?b)%char then _ else _) = _ =>
             destruct (Ascii.eqb_spec a b) as [->|_]
         | match ?v with Basic => _ | Extended => _ end = _ => destruct v
         end;
    try discriminate H;
    unfold operation;
    rewrite strtoull_no_digit by reflexivity;
    now rewrite Hsame.
Qed.

Lemma well_formed_not_mode (V : variant) (t : string) :
  well_formed t = true -> mode_switch V (peek t) = None.
Proof.
  unfold well_formed. intros H.
  destruct (mode_switch V (peek t)) as [m|] eqn:Hm; [|reflexivity].
  now rewrite (mode_not_operation V t m Hm) in H.
Qed.

(** A mode token of the specification is taken for that mode. *)
Lemma spec_mode_switch (V : variant) (t : string) (m : Z * bool) :
  spec_mode V t = Some m -> mode_switch V (peek t) = Some m.
Proof.
  unfold spec_mode. intros H.
  repeat match type of H with
         | (if (?a =? ?b)%string then _ else _) = _ =>
             destruct (String.eqb_spec a b) as [->|_]
         | match ?v with Basic => _ | Extended => _ end = _ => destruct v
         end;
    try discriminate H; exact H.
Qed.

Lemma spec_mode_not_operation (V : variant) (t : string) :
  well_formed t = true -> spec_mode V t = None.
Proof.
  intros H. destruct (spec_mode V t) as [m|] eqn:Hm; [|reflexivity].
  apply spec_mode_switch in Hm.
  now rewrite (well_formed_not_mode V t H) in Hm.
Qed.

Lemma omap_cons_case {A B : Type} (f : A -> option B) (x : A) (l : list A) :
  omap f (x :: l) =
  match f x with
  | Some y => y :: omap f l
  | None => omap f l
  end.
Proof. reflexivity. Qed.

(** On mode tokens and operation tokens the loop's mode is the one the
    specification describes. *)
Lemma mode_after_spec (V : variant) (pre : list string) (m : Z * bool) :
  Forall (fun t => spec_mode V t <> None \/ well_formed t = true) pre ->
  mode_after V m pre = default m (last (omap (spec_mode V) pre)) /\
  count_ops V pre = List.length (List.filter well_formed pre).
Proof.
  intros H. revert m. induction H as [|t pre Ht _ IH]; intros m.
  - split; reflexivity.
  - rewrite count_ops_cons, omap_cons_case. unfold is_mode.
    cbn [mode_after List.filter].
    destruct Ht as [Ht|Ht].
    + destruct (spec_mode V t) as [m'|] eqn:Hm'; [|contradiction].
      rewrite (spec_mode_switch V t m' Hm').
      destruct (well_formed t) eqn:Hwf.
      { rewrite (spec_mode_not_operation V t Hwf) in Hm'. discriminate. }
      destruct (IH m') as (-> & ->). split; [|reflexivity].
      rewrite last_cons. now destruct (last (omap (spec_mode V) pre)).
    + rewrite (well_formed_not_mode V t Ht), Ht.
      rewrite (spec_mode_not_operation V t Ht).
      destruct (IH m) as (-> & ->). split; reflexivity.
Qed.

(** C7: on a command line of mode tokens and operation tokens that the
    loop accepts, the entry of an operation token [arg] has the width and
    the byte order of the last mode token before it, 32 bits unswapped when
    there is none, whatever follows [arg]. *)
Theorem mode_persists (V : variant) (pre : list string) (arg : string)
  (post : list string) (st : pstate) :
  Forall (fun t => spec_mode V t <> None \/ well_formed t = true) pre ->
  well_formed arg = true ->
  parse V initial (pre ++ arg :: post) = Next st ->
  exists e,
    OP st !! List.length (List.filter well_formed pre) = Some e /\
    (width e, swap e) = mode_in_effect V pre /\
    exists v, operation arg = Some (operator e, address e, v).
Proof.
  intros Hpre Harg Hparse. rewrite parse_app in Hparse.
  destruct (parse V initial pre) as [st1| |] eqn:H1; try discriminate.
  cbn [parse] in Hparse.
  destruct (parse_arg V st1 arg) as [st2| |] eqn:H2; try discriminate.
  destruct (parse_Next V pre initial st1 initial_inv H1)
    as (Hinv1 & Hops1 & _ & Hmode1).
  pose proof (parse_arg_inv _ _ _ _ Hinv1 H2) as Hinv2.
  destruct (parse_Next V post st2 st Hinv2 Hparse)
    as (Hinv & Hops & Htake & _).
  destruct (mode_after_spec V pre (32, false) Hpre) as (Hm & Hcount).
  cbn [ops cur_width cur_swap initial] in Hops1, Hmode1.
  rewrite Nat.add_0_l in Hops1. rewrite <- Hcount, <- Hops1.
  rewrite parse_arg_op in H2
    by (try apply well_formed_not_mode; assumption).
  destruct Hinv1 as (Hlen1 & Hle1 & _ & _).
  destruct (Nat.eqb_spec (ops st1) MAXOPS) as [|Hlt]; [discriminate|].
  destruct (operation arg) as [[[o a] v]|] eqn:Hop; [|discriminate].
  inversion H2; subst st2; clear H2. cbn [ops OP] in *.
  exists (fill zero_entry (cur_width st1) (cur_swap st1) o a v).
  conj.
  - rewrite <- (lookup_take_lt (OP st) (ops st)) by lia.
    rewrite Htake. apply lookup_app_l_Some.
    rewrite lookup_take_lt by lia.
    apply list_lookup_insert_eq. lia.
  - cbn [width swap fill]. unfold mode_in_effect. now rewrite <- Hm.
  - exists v. reflexivity.
Qed.

Lemma mode_persists_witness :
  exists st e,
    parse Extended initial ["b"; "1"; "2=5"; "H"; "3"; "w"; "4"] = Next st /\
    OP st !! 2%nat = Some e /\ (width e, swap e) = (16, true).
Proof.
  destruct (parse Extended initial ["b"; "1"; "2=5"; "H"; "3"; "w"; "4"])
    as [st| |] eqn:Hparse; try (vm_compute in Hparse; discriminate Hparse).
  destruct (mode_persists Extended ["b"; "1"; "2=5"; "H"] "3" ["w"; "4"] st)
    as (e & He & Hmode & _).
  - repeat (apply List.Forall_cons;
            [first [left; discriminate | right; reflexivity]|]).
    apply List.Forall_nil.
  - reflexivity.
  - exact Hparse.
  - exists st, e. conj; [reflexivity|exact He|exact Hmode].
Defined.

(** ** Mapping *)

Lemma to_signed_small (bits z : Z) :
  0 < bits -> - 2 ^ (bits - 1) <= z < 2 ^ (bits - 1) -> to_signed bits z = z.
Proof.
  intros Hb Hz. unfold to_signed.
  assert (H2 : 2 ^ bits = 2 * 2 ^ (bits - 1)).
  { rewrite <- Z.pow_succ_r by lia. f_equal. lia. }
  rewrite Z.mod_small by lia. lia.
Qed.

Lemma to_uint64_off_t (z : Z) : to_uint64 (to_off_t z) = z mod 2 ^ 64.
Proof.
  unfold to_uint64, to_off_t, to_signed.
  rewrite Zminus_mod_idemp_l. f_equal. lia.
Qed.

Lemma switch_width_cases (w : Z) (n : nat) :
  switch_width w = Some n ->
  (w = 8 /\ n = 1%nat) \/ (w = 16 /\ n = 2%nat) \/
  (w = 32 /\ n = 4%nat) \/ (w = 64 /\ n = 8%nat).
Proof.
  unfold switch_width. intros H.
  repeat match type of H with
         | (if ?a =? ?b then _ else _) = _ =>
             destruct (Z.eqb_spec a b) as [->|_]
         end;
    inversion H; subst; auto 6.
Qed.

Lemma pagesize_sane (V : variant) (E : env) :
  sane E -> 8 <= pagesize V E < 2 ^ 30.
Proof. unfold sane. destruct V; cbn [pagesize]; [unfold PAGESIZE|]; lia. Qed.

(** C4: the mapping starts at the page of the address, it is one page
    long, two when the datum runs past the end of that page, and the datum
    lies inside it; the access is made at the address itself. *)
Theorem mapping_covers_access (V : variant) (E : env) (e : entry) (n : nat) :
  sane E ->
  0 <= address e < 2 ^ 64 ->
  switch_width (width e) = Some n ->
  let ps := pagesize V E in
  let pageOffset := address e mod ps in
  let start := to_uint64 (map_start ps e) in
  let size := map_size ps e in
  map_offset ps e = pageOffset /\
  start = address e - pageOffset /\
  size = (if pageOffset + width e / 8 >? ps then 2 * ps else ps) /\
  width e / 8 = Z.of_nat n /\
  start <= address e /\
  address e + width e / 8 <= start + size /\
  forall w,
    mmap_error E (to_uint64 size) (map_start ps e) = None ->
    perform_op V E e w =
    Next (log (EvMunmap size)
            (access V E e (address e)
               (log (EvMmap size (map_start ps e)) w))).
Proof.
  intros Hsane Ha Hw ps pageOffset start size.
  pose proof (pagesize_sane V E Hsane) as Hps. fold ps in Hps.
  assert (Hups : to_uint64 ps = ps) by (apply Z.mod_small; lia).
  assert (Hoff : 0 <= pageOffset < ps) by (apply Z.mod_pos_bound; lia).
  assert (Hle : pageOffset <= address e)
    by (apply Z.mod_le; lia).
  assert (Hmo : map_offset ps e = pageOffset).
  { unfold map_offset. rewrite Hups. apply to_signed_small; lia. }
  assert (Hstart : start = address e - pageOffset).
  { unfold start, map_start. rewrite to_uint64_off_t, Hmo.
    unfold to_uint64. rewrite Z.mod_mod by lia. apply Z.mod_small. lia. }
  assert (Hw8 : width e / 8 = Z.of_nat n /\ 1 <= width e / 8 <= 8).
  { destruct (switch_width_cases _ _ Hw)
      as [[-> ->]|[[-> ->]|[[-> ->]|[-> ->]]]]; (split; [reflexivity|]);
      vm_compute; split; discriminate. }
  destruct Hw8 as (Hw8 & Hbytes).
  assert (Hsize : size = if pageOffset + width e / 8 >? ps
                         then 2 * ps else ps).
  { unfold size, map_size, to_int. rewrite Hmo.
    rewrite (to_signed_small 32 (pageOffset + width e / 8)) by lia.
    destruct (pageOffset + width e / 8 >? ps); [|reflexivity].
    apply to_signed_small; lia. }
  assert (Hsz : to_uint64 size = size).
  { rewrite Hsize. unfold to_uint64.
    destruct (pageOffset + width e / 8 >? ps); apply Z.mod_small; lia. }
  conj; try assumption.
  - lia.
  - rewrite Hstart, Hsize.
    destruct (Z.gtb_spec (pageOffset + width e / 8) ps); lia.
  - intros w Hmap. unfold perform_op. fold ps. rewrite Hups.
    destruct (Z.eqb_spec ps 0) as [|_]; [lia|].
    fold size. rewrite Hmap, Hsz. fold start.
    rewrite Hstart, Hmo. do 3 f_equal. lia.
Qed.

Lemma mapping_covers_access_witness :
  let e := {| operator := READ; width := 32; swap := false;
              address := 8190; data := 0 |} in
  to_uint64 (map_start 4096 e) = 4096 /\ map_size 4096 e = 8192.
Proof.
  intros e.
  destruct (mapping_covers_access Extended pc e 4)
    as (_ & Hstart & Hsize & _).
  - unfold sane. cbn. lia.
  - cbn. lia.
  - reflexivity.
  - split; [exact Hstart|exact Hsize].
Defined.

(** C2 fails on src/mem.c: its page size is the constant 4096 whatever
    the system says.  On a system with pages of 16384 bytes a read of
    0x5000 maps 4096 bytes at offset 0x5000, where the other version maps
    the page of 16384 bytes at 0x4000 that holds the address. *)
Theorem basic_page_size_is_constant :
  (forall E, pagesize Basic E = 4096) /\
  trace (final (main Basic big_pages ["mem"; "0x5000"] boot)) =
    [EvOpen; EvMmap 4096 20480; EvLoad 4 20480; EvMunmap 4096] /\
  trace (final (main Extended big_pages ["mem"; "0x5000"] boot)) =
    [EvOpen; EvMmap 16384 16384; EvLoad 4 20480; EvMunmap 16384].
Proof. conj; [reflexivity|vm_compute; reflexivity..]. Qed.

(** ** Accesses *)

(** The access made for an entry of one of the four widths. *)
Lemma access_width (V : variant) (E : env) (e : entry) (a : Z) (w : world)
  (n : nat) :
  switch_width (width e) = Some n ->
  access V E e a w =
  let old := decode E (get_bytes (mem w) a n) in
  match operator e with
  | READ => printf (print_hex (2 * n) (shown V e n old)) (log (EvLoad n a) w)
  | WRITE => store E n a (data e) w
  | o => store E n a (applied o old (data e)) (log (EvLoad n a) w)
  end.
Proof.
  intros Hw. unfold access. rewrite Hw.
  destruct (operator e); reflexivity.
Qed.

Lemma width_bits (w : Z) (n : nat) :
  switch_width w = Some n -> 2 ^ w = 256 ^ Z.of_nat n /\ w = 8 * Z.of_nat n.
Proof.
  intros H.
  destruct (switch_width_cases _ _ H)
    as [[-> ->]|[[-> ->]|[[-> ->]|[-> ->]]]]; split; reflexivity.
Qed.

(** The value kept in an entry is, in its low [w] bits, the value of the
    token cut to [w] bits, with its bytes reversed in a swapped mode. *)
Lemma operand_trunc (sw : bool) (w : Z) (n : nat) (d : Z) :
  switch_width w = Some n ->
  swap_data sw w d mod 2 ^ w =
  if sw then bswap n (d mod 2 ^ w) else d mod 2 ^ w.
Proof.
  intros H. destruct (width_bits _ _ H) as (Hpow & _). rewrite Hpow.
  destruct sw; [|reflexivity].
  unfold bswap at 1. rewrite to_le_mod. fold (bswap n d).
  destruct (switch_width_cases _ _ H)
    as [[-> ->]|[[-> ->]|[[-> ->]|[-> ->]]]]; cbn [swap_data Z.eqb Pos.eqb].
  - unfold bswap. cbn [to_le rev app of_le].
    change (256 ^ Z.of_nat 1) with 256. lia.
  - apply Z.mod_small, bswap_range.
  - apply Z.mod_small, bswap_range.
  - apply Z.mod_small, bswap_range.
Qed.

Lemma switch_operator_value (p p' : string) (o : optype) :
  switch_operator p = SufValue o p' -> o <> READ.
Proof.
  unfold switch_operator. intros H.
  repeat match type of H with
         | (if ?b then _ else _) = _ => destruct b
         end;
    inversion H; subst; discriminate.
Qed.

(** A token with a value is not a read. *)
Lemma operation_value (arg : string) (o : optype) (a d : Z) :
  operation arg = Some (o, a, Some d) -> o <> READ.
Proof.
  unfold operation. intros H.
  destruct (strtoull arg) as [a' p].
  destruct (same_ptr p arg); [discriminate|].
  destruct (switch_operator p) as [|o' p'|] eqn:Hsw; try discriminate.
  destruct (peek p' =? NUL)%char; [discriminate|].
  destruct (strtoull p') as [d' p''].
  destruct (peek p'' =? NUL)%char; [|discriminate].
  inversion H; subst. eapply switch_operator_value, Hsw.
Qed.

(** C5: for a token with a value [d] read in a mode of width [wd], the
    entry holds, in its low [wd] bits, [d mod 2 ^ wd], byte-reversed in a
    swapped mode; and the access leaves in memory what the operator gives
    on the old content and that truncated value. *)
Theorem value_applied_is_truncated (V : variant) (E : env) (st st' : pstate)
  (arg : string) (o : optype) (a d : Z) (n : nat) (pa : Z) (w0 : world) :
  parse_arg V st arg = Next st' ->
  operation arg = Some (o, a, Some d) ->
  switch_width (cur_width st) = Some n ->
  let wd := cur_width st in
  let x := if cur_swap st then bswap n (d mod 2 ^ wd) else d mod 2 ^ wd in
  let old := decode E (get_bytes (mem w0) pa n) in
  exists e,
    OP st' !! ops st = Some e /\
    operator e = o /\ o <> READ /\
    data e mod 2 ^ wd = x /\
    x mod 2 ^ wd = x /\
    mem (access V E e pa w0) =
      put_bytes (mem w0) pa (encode E n (applied o old x)) /\
    exists evs,
      trace (access V E e pa w0) =
        trace w0 ++ evs ++ [EvStore n pa (applied o old x mod 2 ^ wd)].
Proof.
  intros Harg Hop Hw wd x old.
  pose proof (mode_not_operation V arg) as Hnm.
  unfold parse_arg in Harg.
  destruct (mode_switch V (peek arg)) as [m|] eqn:Hm;
    [rewrite (Hnm m eq_refl) in Hop; discriminate|].
  destruct (ops st =? MAXOPS)%nat; [discriminate|].
  destruct (OP st !! ops st) as [e0|] eqn:He0; [|discriminate].
  rewrite Hop in Harg. inversion Harg; subst st'; clear Harg.
  cbn [OP ops].
  exists (fill e0 (cur_width st) (cur_swap st) o a (Some d)).
  destruct (width_bits _ _ Hw) as (Hpow & Hbits). fold wd in Hpow, Hbits.
  assert (Hx : data (fill e0 wd (cur_swap st) o a (Some d)) mod 2 ^ wd = x)
    by (cbn [data fill]; apply operand_trunc, Hw).
  pose proof (operation_value _ _ _ _ Hop) as Hread.
  cbn [data fill] in Hx.
  assert (Hxx : x mod 2 ^ wd = x)
    by (rewrite <- Hx; apply Z.mod_mod, Z.pow_nonzero; lia).
  assert (Hev : forall v,
             applied o v (swap_data (cur_swap st) wd d) mod 256 ^ Z.of_nat n =
             applied o v x mod 2 ^ wd).
  { intros v. rewrite <- Hpow.
    rewrite (applied_trunc o wd v (swap_data _ _ _)) by lia.
    rewrite (applied_trunc o wd v x) by lia.
    now rewrite Hx, Hxx. }
  assert (Hsame : forall v,
             encode E n (applied o v (swap_data (cur_swap st) wd d)) =
             encode E n (applied o v x)).
  { intros v. rewrite <- (encode_mod E n (applied o v (swap_data _ _ _))).
    rewrite <- (encode_mod E n (applied o v x)). f_equal.
    rewrite Hev. now rewrite Hpow. }
  conj.
  - apply list_lookup_insert_eq. eapply lookup_lt_Some, He0.
  - reflexivity.
  - exact Hread.
  - exact Hx.
  - exact Hxx.
  - rewrite (access_width V E _ pa w0 n) by exact Hw.
    cbn [operator data fill]. fold old.
    destruct o; try contradiction; cbn [store log mem applied];
      f_equal; first [exact (Hsame old)|exact (Hsame 0)].
  - rewrite (access_width V E _ pa w0 n) by exact Hw.
    cbn [operator data fill]. fold old.
    destruct o; try contradiction; cbn [store log trace].
    + exists []. cbn [app]. do 3 f_equal. exact (Hev 0).
    + exists [EvLoad n pa]. rewrite <- app_assoc. do 4 f_equal. exact (Hev old).
    + exists [EvLoad n pa]. rewrite <- app_assoc. do 4 f_equal. exact (Hev old).
    + exists [EvLoad n pa]. rewrite <- app_assoc. do 4 f_equal. exact (Hev old).
Qed.

Lemma value_applied_is_truncated_witness :
  exists st' e,
    parse_arg Extended (Build_pstate 16 true 0 (OP initial)) "0x1000|=0x1A2B3C"
      = Next st' /\
    OP st' !! 0%nat = Some e /\
    data e mod 2 ^ 16 = 15403 (* 0x3C2B *).
Proof.
  destruct (parse_arg Extended (Build_pstate 16 true 0 (OP initial))
              "0x1000|=0x1A2B3C") as [st'| |] eqn:H;
    try (vm_compute in H; discriminate H).
  destruct (value_applied_is_truncated Extended pc _ st' _ OR 4096 1715004
              2 4096 boot H) as (e & He & _ & _ & Hd & _).
  - reflexivity.
  - reflexivity.
  - exists st', e. conj; [reflexivity|exact He|exact Hd].
Defined.

(** ** The perform loop *)

(** One turn of the loop when the mapping succeeds. *)
Lemma perform_op_mapped (V : variant) (E : env) (e : entry) (w : world) :
  sane E ->
  mmap_error E (to_uint64 (map_size (pagesize V E) e))
    (map_start (pagesize V E) e) = None ->
  perform_op V E e w =
  let ps := pagesize V E in
  Next (log (EvMunmap (to_uint64 (map_size ps e)))
          (access V E e (to_uint64 (map_start ps e) + map_offset ps e)
             (log (EvMmap (to_uint64 (map_size ps e)) (map_start ps e)) w))).
Proof.
  intros Hsane Hmap. pose proof (pagesize_sane V E Hsane) as Hps.
  unfold perform_op.
  replace (to_uint64 (pagesize V E) =? 0) with false
    by (symmetry; apply Z.eqb_neq; unfold to_uint64;
        rewrite Z.mod_small; lia).
  now rewrite Hmap.
Qed.

(** What one access adds to standard output. *)
Lemma access_out (V : variant) (E : env) (e : entry) (a : Z) (w : world)
  (n : nat) :
  switch_width (width e) = Some n ->
  out (access V E e a w) =
  out w ++
  (if is_read e
   then [print_hex (2 * n) (shown V e n (decode E (get_bytes (mem w) a n)))]
   else []).
Proof.
  intros Hw. rewrite (access_width V E e a w n Hw). unfold is_read.
  destruct (operator e); cbn [out printf store log];
    now rewrite ?app_nil_r.
Qed.

Lemma shown_range (V : variant) (E : env) (e : entry) (m : Z -> Z) (a : Z)
  (n : nat) :
  0 <= shown V e n (decode E (get_bytes m a n)) < 256 ^ Z.of_nat n.
Proof.
  unfold shown. destruct V; [apply loaded_range|].
  destruct (n =? 1)%nat; [apply loaded_range|].
  destruct (swap e); [apply bswap_range|apply loaded_range].
Qed.

(** The line a read prints is well formed for its width. *)
Lemma read_line (V : variant) (E : env) (e : entry) (m : Z -> Z) (a : Z)
  (n : nat) :
  switch_width (width e) = Some n ->
  hex_line (width e) (shown V e n (decode E (get_bytes m a n)))
    (print_hex (2 * n) (shown V e n (decode E (get_bytes m a n)))).
Proof.
  intros Hw. destruct (width_bits _ _ Hw) as (_ & Hbits).
  replace (width e) with (4 * Z.of_nat (2 * n)) by lia.
  apply print_hex_line.
  - destruct (switch_width_cases _ _ Hw)
      as [[_ ->]|[[_ ->]|[[_ ->]|[_ ->]]]]; cbn; lia.
  - replace (16 ^ Z.of_nat (2 * n)) with (256 ^ Z.of_nat n).
    + apply shown_range.
    + rewrite Nat2Z.inj_mul, Z.pow_mul_r by lia. reflexivity.
Qed.

(** The lines of a run of the loop that reaches its end: one for each read
    among the entries it went through, in their order. *)
Lemma perform_out (V : variant) (E : env) (OPs : list entry) (todo : nat) :
  forall (op : nat) (w w' : world),
    perform V E OPs op todo w = Exit 0 w' ->
    Forall (fun e => switch_width (width e) <> None) (take todo (drop op OPs)) ->
    exists lines,
      out w' = out w ++ lines /\
      Forall2 (fun e line => exists v, hex_line (width e) v line)
        (List.filter is_read (take todo (drop op OPs))) lines.
Proof.
  induction todo as [|todo IH]; intros op w w' Hrun Hwidths.
  - cbn in Hrun. inversion Hrun; subst. exists [].
    rewrite app_nil_r. split; [reflexivity|constructor].
  - cbn [perform] in Hrun.
    destruct (OPs !! op) as [e|] eqn:He; [|discriminate].
    rewrite (drop_S _ _ _ He) in Hwidths |- *.
    cbn [take] in Hwidths |- *.
    inversion Hwidths as [|? ? Hw Hrest]; subst.
    destruct (perform_op V E e w) as [w1| |] eqn:Hop; try discriminate.
    destruct (IH _ _ _ Hrun Hrest) as (lines & Hout & Hlines).
    destruct (switch_width (width e)) as [n|] eqn:Hn; [|contradiction].
    unfold perform_op in Hop.
    destruct (to_uint64 (pagesize V E) =? 0); [discriminate|].
    destruct (mmap_error E _ _); [discriminate|].
    inversion Hop; subst w1; clear Hop.
    cbn [out log] in Hout.
    rewrite (access_out V E e _ _ n Hn) in Hout. cbn [out log mem] in Hout.
    cbn [List.filter].
    destruct (is_read e).
    + eexists (_ :: lines). rewrite Hout, <- app_assoc.
      split; [reflexivity|]. constructor; [|exact Hlines].
      eexists. apply read_line, Hn.
    + exists lines. rewrite app_nil_r in Hout. split; assumption.
Qed.

Lemma entries_widths (V : variant) (args : list string) :
  forall (w : Z) (sw : bool),
    switch_width w <> None ->
    Forall (fun e => switch_width (width e) <> None) (entries V w sw args).
Proof.
  induction args as [|arg rest IH]; intros w sw Hw; cbn [entries].
  - constructor.
  - destruct (mode_switch V (peek arg)) as [[w' sw']|] eqn:Hm.
    + eapply IH, mode_switch_width, Hm.
    + destruct (operation arg) as [[[o a] v]|]; constructor; auto.
Qed.

(** C9: a run that ends with status 0 has printed one line for each read
    among the entries, which are those of the operation tokens in the
    order of the command line, and nothing else; the line of a read of
    width w is [0x], [w / 4] upper-case hexadecimal digits and a newline,
    and the digits spell the datum loaded (with its bytes reversed first
    in a swapped mode). *)
Theorem reads_print_hex_lines (V : variant) (E : env) (argv : list string)
  (w w' : world) :
  main V E argv w = Exit 0 w' ->
  let listed := entries V 32 false (List.tl argv) in
  (exists st,
      parse V initial (List.tl argv) = Next st /\
      take (ops st) (OP st) = listed) /\
  (exists lines,
      out w' = out w ++ lines /\
      Forall2 (fun e line => exists v, hex_line (width e) v line)
        (List.filter is_read listed) lines) /\
  (forall e a w0 n,
      switch_width (width e) = Some n ->
      let v := shown V e n (decode E (get_bytes (mem w0) a n)) in
      (swap e = false -> v = decode E (get_bytes (mem w0) a n)) /\
      out (access V E e a w0) =
        out w0 ++ (if is_read e then [print_hex (2 * n) v] else []) /\
      hex_line (width e) v (print_hex (2 * n) v)).
Proof.
  intros Hmain listed. unfold main in Hmain.
  destruct (parse V initial (List.tl argv)) as [st| |] eqn:Hparse;
    try discriminate.
  destruct (parse_Next V _ initial st initial_inv Hparse)
    as (Hinv & _ & Htake & _).
  cbn [ops OP initial cur_width cur_swap] in Htake.
  rewrite take_0, app_nil_l in Htake. fold listed in Htake.
  conj.
  - exists st. split; [reflexivity|exact Htake].
  - destruct (ops st =? 0)%nat; [discriminate|].
    destruct (open_error E); [discriminate|].
    rewrite <- Htake.
    apply (perform_out V E (OP st) (ops st) 0%nat (log EvOpen w) w' Hmain).
    rewrite drop_0, Htake. apply entries_widths. vm_compute. discriminate.
  - intros e a w0 n Hn v. conj.
    + intros Hsw. unfold v, shown. rewrite Hsw.
      destruct V; [reflexivity|]. now destruct (n =? 1)%nat.
    + apply access_out, Hn.
    + apply read_line, Hn.
Qed.

Lemma reads_print_hex_lines_witness :
  exists lines,
    out (final (main Extended pc ["mem"; "b"; "0x10=0xAB"; "0x10"] boot))
      = lines /\
    Forall2 (fun e line => exists v, hex_line (width e) v line)
      (List.filter is_read
         (entries Extended 32 false ["b"; "0x10=0xAB"; "0x10"])) lines.
Proof.
  destruct (main Extended pc ["mem"; "b"; "0x10=0xAB"; "0x10"] boot)
    as [s w'|w'] eqn:Hmain; try (vm_compute in Hmain; discriminate Hmain).
  assert (Hs : s = 0) by (vm_compute in Hmain; congruence).
  subst s.
  destruct (reads_print_hex_lines Extended pc _ boot w' Hmain)
    as (_ & (lines & Hout & Hlines) & _).
  exists lines. split; [exact Hout|exact Hlines].
Defined.

(** ** Writing, then reading *)

(** Only the swapped version sets [swap], and never for bytes. *)
Lemma mode_switch_swap (V : variant) (c : ascii) (wd : Z) (sw : bool) :
  mode_switch V c = Some (wd, sw) ->
  sw = true -> V = Extended /\ wd <> 8.
Proof.
  unfold mode_switch. intros H Hsw.
  repeat match type of H with
         | (if ?b then _ else _) = _ => destruct b
         | match ?v with Basic => _ | Extended => _ end = _ => destruct v
         end;
    inversion H; subst; try discriminate; (split; [reflexivity|lia]).
Qed.

(** What a read shows of a datum stored by a write in the same mode. *)
Lemma shown_stored (V : variant) (e : entry) (wd : Z) (sw : bool) (n : nat)
  (v : Z) :
  switch_width wd = Some n ->
  (sw = true -> V = Extended /\ wd <> 8) ->
  swap e = sw ->
  shown V e n (swap_data sw wd v mod 256 ^ Z.of_nat n) = v mod 2 ^ wd.
Proof.
  intros Hw Hsw He. destruct (width_bits _ _ Hw) as (Hpow & _).
  rewrite <- Hpow. rewrite (operand_trunc sw wd n v Hw).
  unfold shown. rewrite He. destruct sw.
  - destruct (Hsw eq_refl) as (-> & Hne).
    replace (n =? 1)%nat with false.
    + rewrite Hpow. unfold bswap at 2. rewrite to_le_mod. fold (bswap n v).
      apply bswap_bswap.
    + destruct (switch_width_cases _ _ Hw)
        as [[? ->]|[[_ ->]|[[_ ->]|[_ ->]]]]; [contradiction|reflexivity..].
  - destruct V; [reflexivity|]. now destruct (n =? 1)%nat.
Qed.

(** The loop on mode tokens only changes the mode. *)
Lemma parse_modes (V : variant) (modes : list string) :
  Forall (fun t => spec_mode V t <> None) modes ->
  forall st,
    parse V st modes =
    Next {| cur_width := fst (mode_after V (cur_width st, cur_swap st) modes);
            cur_swap := snd (mode_after V (cur_width st, cur_swap st) modes);
            ops := ops st; OP := OP st |}.
Proof.
  induction 1 as [|t modes Ht _ IH]; intros st; cbn [parse mode_after].
  - now destruct st.
  - destruct (spec_mode V t) as [[wd sw]|] eqn:Hm; [|contradiction].
    apply spec_mode_switch in Hm. unfold parse_arg. rewrite Hm.
    now rewrite IH.
Qed.

(** The mode of the loop is the initial one or comes from the switch. *)
Lemma mode_after_origin (V : variant) (args : list string) :
  forall m, mode_after V m args = m \/
            exists c, mode_switch V c = Some (mode_after V m args).
Proof.
  induction args as [|t args IH]; intros m; cbn [mode_after].
  - now left.
  - destruct (mode_switch V (peek t)) as [m'|] eqn:Hm; [|apply IH].
    destruct (IH m') as [->|H]; [|now right].
    right. now exists (peek t).
Qed.

(** C6: a write of [v] followed by a read of the same address in the same
    mode prints [v] cut to the width of the mode, also in a swapped mode,
    where the value is reversed before the store and again after the
    load.  The mode is the one in effect after the mode tokens [modes],
    the default when there are none. *)
Theorem write_then_read (V : variant) (E : env) (prog : string)
  (modes : list string) (warg rarg : string)
  (wd : Z) (sw : bool) (a v : Z) (w0 : world) :
  Forall (fun t => spec_mode V t <> None) modes ->
  mode_in_effect V modes = (wd, sw) ->
  operation warg = Some (WRITE, a, Some v) ->
  operation rarg = Some (READ, a, None) ->
  sane E ->
  open_error E = None ->
  (forall size off, mmap_error E size off = None) ->
  exists w',
    main V E (prog :: modes ++ [warg; rarg]) w0 = Exit 0 w' /\
    out w' = out w0 ++ [print_hex (Z.to_nat (wd / 4)) (v mod 2 ^ wd)] /\
    hex_line wd (v mod 2 ^ wd) (print_hex (Z.to_nat (wd / 4)) (v mod 2 ^ wd)).
Proof.
  intros Hmodes Hmode Hwarg Hrarg Hsane Hopen Hmap.
  pose proof (parse_modes V modes Hmodes initial) as H1.
  cbn [cur_width cur_swap ops initial] in H1.
  assert (Hafter : mode_after V (32, false) modes = (wd, sw)).
  { rewrite <- Hmode. unfold mode_in_effect.
    apply mode_after_spec.
    eapply List.Forall_impl; [|exact Hmodes]. intros t Ht. now left. }
  rewrite Hafter in H1. cbn [fst snd] in H1.
  destruct (parse_Next V _ initial _ initial_inv H1)
    as (Hinv1 & _ & _ & _).
  destruct (switch_width wd) as [n|] eqn:Hw;
    [|now destruct Hinv1 as (_ & _ & _ & Hbad)].
  assert (Hsw : sw = true -> V = Extended /\ wd <> 8).
  { destruct (mode_after_origin V modes (32, false)) as [Ho|(c & Hc)].
    - rewrite Hafter in Ho. inversion Ho; subst. discriminate.
    - rewrite Hafter in Hc. eapply mode_switch_swap, Hc. }
  assert (Hwnm : mode_switch V (peek warg) = None)
    by (apply well_formed_not_mode; unfold well_formed; now rewrite Hwarg).
  assert (Hrnm : mode_switch V (peek rarg) = None)
    by (apply well_formed_not_mode; unfold well_formed; now rewrite Hrarg).
  set (e1 := fill zero_entry wd sw WRITE a (Some v)).
  set (e2 := fill zero_entry wd sw READ a None).
  set (st1 := Build_pstate wd sw 0 (OP initial)) in *.
  set (st2 := Build_pstate wd sw 1 (<[0%nat := e1]> (OP st1))).
  set (st3 := Build_pstate wd sw 2 (<[1%nat := e2]> (OP st2))).
  assert (H2 : parse_arg V st1 warg = Next st2)
    by (rewrite parse_arg_op by assumption; cbn [ops st1 Nat.eqb MAXOPS];
        now rewrite Hwarg).
  pose proof (parse_arg_inv _ _ _ _ Hinv1 H2) as Hinv2.
  assert (H3 : parse_arg V st2 rarg = Next st3)
    by (rewrite parse_arg_op by assumption; cbn [ops st2 Nat.eqb MAXOPS];
        now rewrite Hrarg).
  assert (Hlen : List.length (OP st1) = MAXOPS) by apply Hinv1.
  assert (He1 : OP st3 !! 0%nat = Some e1).
  { cbn [OP st3 st2]. rewrite list_lookup_insert_ne by lia.
    apply list_lookup_insert_eq. rewrite Hlen. unfold MAXOPS. lia. }
  assert (He2 : OP st3 !! 1%nat = Some e2).
  { cbn [OP st3 st2]. apply list_lookup_insert_eq.
    rewrite length_insert, Hlen. unfold MAXOPS. lia. }
  assert (Hops : ops st3 = 2%nat) by reflexivity.
  clearbody st1 st2 st3.
  unfold main. cbn [List.tl]. rewrite parse_app, H1.
  cbn [parse]. rewrite H2, H3, Hops.
  cbn [Nat.eqb]. rewrite Hopen.
  cbn [perform]. rewrite He1, (perform_op_mapped V E e1) by auto.
  cbv zeta. rewrite He2, (perform_op_mapped V E e2) by auto.
  cbv zeta. eexists. split; [reflexivity|].
  assert (Hline :
    print_hex (2 * n)
      (shown V e2 n (swap_data sw wd v mod 256 ^ Z.of_nat n)) =
    print_hex (Z.to_nat (wd / 4)) (v mod 2 ^ wd)).
  { rewrite (shown_stored V e2 wd sw n v Hw Hsw eq_refl). f_equal.
    destruct (switch_width_cases _ _ Hw)
      as [[-> ->]|[[-> ->]|[[-> ->]|[-> ->]]]]; reflexivity. }
  split.
  - cbn [out log].
    rewrite (access_out V E e2 _ _ n Hw). cbn [is_read operator e2 fill].
    cbn [out log mem].
    rewrite (access_width V E e1 _ _ n Hw).
    cbn [operator data e1 fill store log mem out address map_start map_offset].
    rewrite load_after_store. now rewrite Hline.
  - clear Hline.
    destruct (switch_width_cases _ _ Hw)
      as [[-> _]|[[-> _]|[[-> _]|[-> _]]]];
      [apply (print_hex_line 2)|apply (print_hex_line 4)
      |apply (print_hex_line 8)|apply (print_hex_line 16)];
      first [lia|apply Z.mod_pos_bound; reflexivity].
Qed.

Lemma write_then_read_witness :
  exists w',
    main Extended pc ["mem"; "b"; "W"; "0x1000=0x1A2B3C4D5E"; "0x1000"] boot
      = Exit 0 w' /\
    out w' = [print_hex 8 725372254 (* 0x2B3C4D5E *)].
Proof.
  destruct (write_then_read Extended pc "mem" ["b"; "W"]
              "0x1000=0x1A2B3C4D5E" "0x1000" 32 true 4096 112394521950 boot)
    as (w' & Hrun & Hout & _).
  - repeat (apply List.Forall_cons; [discriminate|]). apply List.Forall_nil.
  - reflexivity.
  - reflexivity.
  - reflexivity.
  - unfold sane. cbn. lia.
  - reflexivity.
  - reflexivity.
  - exists w'. split; [exact Hrun|exact Hout].
Defined.

(** ** Signs *)

Lemma digit_char (d : Z) :
  0 <= d <= 9 ->
  digit_in 10 (digit_ascii d) = Some d /\
  (d <> 0 -> (digit_ascii d =? "0")%char = false).
Proof.
  intros H.
  assert (Hn : (Z.to_nat d < 10)%nat) by lia.
  rewrite <- (Z2Nat.id d) by lia.
  generalize dependent (Z.to_nat d). intros n Hn.
  do 10 (destruct n as [|n];
         [conj; try reflexivity; intros Hd;
          (reflexivity || (exfalso; apply Hd; reflexivity))|]).
  lia.
Qed.

Lemma scan_digits_numeral (ds : list Z) (acc : Z) :
  Forall (fun d => 0 <= d <= 9) ds ->
  scan_digits 10 acc (numeral ds) =
  (fold_left (fun a d => a * 10 + d) ds acc, "").
Proof.
  intros H. revert acc. induction H as [|d ds Hd _ IH]; intros acc.
  - reflexivity.
  - unfold numeral. cbn [List.map string_of_list_ascii scan_digits].
    destruct (digit_char d Hd) as (-> & _). apply IH.
Qed.

Lemma fold_digits_ge (ds : list Z) (acc : Z) :
  Forall (fun d => 0 <= d <= 9) ds ->
  0 <= acc -> acc <= fold_left (fun a d => a * 10 + d) ds acc.
Proof.
  intros H. revert acc. induction H as [|d ds Hd _ IH]; intros acc Hacc.
  - cbn. lia.
  - cbn [fold_left]. specialize (IH (acc * 10 + d)). lia.
Qed.

Lemma uint64_opp (n : Z) : 0 < n < 2 ^ 64 -> to_uint64 (- n) = 2 ^ 64 - n.
Proof.
  intros H. unfold to_uint64.
  replace (- n) with (2 ^ 64 - n + (-1) * 2 ^ 64) by lia.
  rewrite Z_mod_plus_full. apply Z.mod_small. lia.
Qed.

(** [strtoull] on a minus sign and a decimal numeral that starts with a
    digit other than 0. *)
Lemma strtoull_minus (d0 : Z) (ds : list Z) :
  1 <= d0 <= 9 ->
  Forall (fun d => 0 <= d <= 9) ds ->
  decimal (d0 :: ds) < 2 ^ 64 ->
  strtoull (String "-" (numeral (d0 :: ds))) =
  (2 ^ 64 - decimal (d0 :: ds), "").
Proof.
  intros Hd0 Hds Hn.
  assert (Hall : Forall (fun d => 0 <= d <= 9) (d0 :: ds))
    by (constructor; [lia|exact Hds]).
  assert (Hpos : 0 < decimal (d0 :: ds)).
  { unfold decimal. cbn [fold_left].
    pose proof (fold_digits_ge ds (0 * 10 + d0) Hds). lia. }
  destruct (digit_char d0) as (Hdig & Hz); [lia|].
  unfold strtoull. cbn [skip_space].
  change (isspace "-") with false. cbv iota.
  unfold scan_sign. cbn [peek advance].
  change ("-" =? "-")%char with true. cbv iota.
  unfold scan_base, numeral. cbn [List.map string_of_list_ascii peek].
  rewrite Hz by lia. cbv iota beta. cbn [peek]. rewrite Hdig.
  change (String (digit_ascii d0)
            (string_of_list_ascii (List.map digit_ascii ds)))
    with (numeral (d0 :: ds)).
  rewrite (scan_digits_numeral _ 0 Hall).
  fold (decimal (d0 :: ds)).
  replace (ULLONG_MAX <? decimal (d0 :: ds)) with false
    by (symmetry; apply Z.ltb_ge; unfold ULLONG_MAX; lia).
  now rewrite uint64_opp by lia.
Qed.

(** C10: a minus sign in front of a number is accepted.  For a decimal
    numeral of a value n with 0 < n < 2 ^ 64, the token [-n] is read as
    2 ^ 64 - n, as an address and as a value, and its operation is
    appended to the list. *)
Theorem minus_sign_negates (V : variant) (d0 : Z) (ds : list Z) :
  1 <= d0 <= 9 ->
  Forall (fun d => 0 <= d <= 9) ds ->
  let n := decimal (d0 :: ds) in
  n < 2 ^ 64 ->
  let tok := String "-" (numeral (d0 :: ds)) in
  strtoull tok = (2 ^ 64 - n, "") /\
  operation tok = Some (READ, 2 ^ 64 - n, None) /\
  operation (String "7" (String "=" tok)) = Some (WRITE, 7, Some (2 ^ 64 - n)) /\
  exists st,
    parse V initial [tok] = Next st /\
    ops st = 1%nat /\
    OP st !! 0%nat =
      Some {| operator := READ; width := 32; swap := false;
              address := 2 ^ 64 - n; data := 0 |}.
Proof.
  intros Hd0 Hds n Hn tok.
  pose proof (strtoull_minus d0 ds Hd0 Hds Hn) as Hs. fold n tok in Hs.
  assert (Hread : operation tok = Some (READ, 2 ^ 64 - n, None)).
  { unfold operation. rewrite Hs. reflexivity. }
  conj.
  - exact Hs.
  - exact Hread.
  - unfold operation.
    change (strtoull (String "7" (String "=" tok))) with (7, String "=" tok).
    cbv iota beta.
    replace (same_ptr (String "=" tok) (String "7" (String "=" tok)))
      with false
      by (symmetry; apply Nat.eqb_neq; cbn [String.length]; lia).
    change (switch_operator (String "=" tok)) with (SufValue WRITE tok).
    cbv iota beta. change (peek tok =? NUL)%char with false. cbv iota.
    rewrite Hs. reflexivity.
  - eexists. cbn [parse].
    rewrite parse_arg_op; [|apply initial_inv|destruct V; reflexivity].
    cbn [ops initial Nat.eqb MAXOPS]. rewrite Hread.
    conj; [reflexivity|reflexivity|].
    cbn [OP]. apply list_lookup_insert_eq.
    change (OP initial) with (replicate MAXOPS zero_entry).
    rewrite length_replicate. unfold MAXOPS. lia.
Qed.

Lemma minus_sign_negates_witness :
  strtoull "-1" = (18446744073709551615, "") /\
  operation "7=-1" = Some (WRITE, 7, Some 18446744073709551615).
Proof.
  destruct (minus_sign_negates Basic 1 []) as (Hs & _ & Hv & _).
  - lia.
  - constructor.
  - reflexivity.
  - split; [exact Hs|exact Hv].
Defined.

(** ** The entries of a command line fit their types *)

Lemma digit_of_nonneg (c : ascii) (d : Z) : digit_of c = Some d -> 0 <= d.
Proof.
  unfold digit_of. intros H.
  repeat match type of H with
         | (if ?b then _ else _) = _ =>
             let Hb := fresh "Hb" in
             destruct b eqn:Hb;
             [apply andb_true_iff in Hb; destruct Hb as (Hb & _);
              apply Z.leb_le in Hb|]
         end;
    inversion H; subst; lia.
Qed.

Lemma scan_digits_nonneg (base : Z) (s : string) :
  0 <= base -> forall acc, 0 <= acc -> 0 <= fst (scan_digits base acc s).
Proof.
  intros Hb. induction s as [|c r IH]; intros acc Hacc; cbn [scan_digits].
  - exact Hacc.
  - unfold digit_in. destruct (digit_of c) as [d|] eqn:Hd; [|exact Hacc].
    destruct (d <? base); [|exact Hacc].
    apply IH. apply digit_of_nonneg in Hd. nia.
Qed.

(** [strtoull] returns an [unsigned long long]. *)
Lemma strtoull_range (s : string) : 0 <= fst (strtoull s) < 2 ^ 64.
Proof.
  unfold strtoull.
  destruct (scan_sign (skip_space s)) as [neg s1].
  assert (Hbase : 0 <= fst (scan_base s1)).
  { unfold scan_base. destruct (peek s1 =? "0")%char; [|cbn; lia].
    match goal with |- context [if ?b then _ else _] => destruct b end;
      cbn; lia. }
  destruct (scan_base s1) as [base s2]. cbn [fst] in Hbase.
  destruct (digit_in base (peek s2)); [|cbn; lia].
  pose proof (scan_digits_nonneg base s2 Hbase 0 (Z.le_refl 0)) as Hn.
  destruct (scan_digits base 0 s2) as [n endptr]. cbn [fst] in *.
  destruct (Z.ltb_spec ULLONG_MAX n); [unfold ULLONG_MAX; lia|].
  destruct neg.
  - apply Z.mod_pos_bound. lia.
  - unfold ULLONG_MAX in *. lia.
Qed.

Lemma operation_range (arg : string) (o : optype) (a : Z) (v : option Z) :
  operation arg = Some (o, a, v) -> 0 <= a < 2 ^ 64.
Proof.
  unfold operation. intros H.
  pose proof (strtoull_range arg) as Ha.
  destruct (strtoull arg) as [a' p]. cbn [fst] in Ha.
  destruct (same_ptr p arg); [discriminate|].
  destruct (switch_operator p) as [|o' p'|]; try discriminate.
  - inversion H; subst. exact Ha.
  - destruct (peek p' =? NUL)%char; [discriminate|].
    destruct (strtoull p') as [d' p''].
    destruct (peek p'' =? NUL)%char; [|discriminate].
    inversion H; subst. exact Ha.
Qed.

(** Every entry listed for a command line has a 64-bit address. *)
Lemma entries_addresses (V : variant) (args : list string) :
  forall (w : Z) (sw : bool),
    Forall (fun e => 0 <= address e < 2 ^ 64) (entries V w sw args).
Proof.
  induction args as [|arg rest IH]; intros w sw; cbn [entries].
  - constructor.
  - destruct (mode_switch V (peek arg)) as [[w' sw']|]; [apply IH|].
    destruct (operation arg) as [[[o a] v]|] eqn:Hop; constructor.
    + cbn [address fill]. eapply operation_range, Hop.
    + apply IH.
Qed.


(** ** The scenarios of the specification *)

Example scenario_write_then_read :
  let o := main Basic pc ["mem"; "0x1000=0xFF"; "0x1000"] boot in
  exit_status o = Some 0 /\ out (final o) = [("0x000000FF" ++ nl)%string].
Proof. vm_compute. auto. Qed.

Example scenario_byte :
  let o := main Extended pc ["mem"; "b"; "0x2000=0xAB"; "0x2000"] boot in
  exit_status o = Some 0 /\
  out (final o) = [("0xAB" ++ nl)%string] /\
  trace (final o) =
    [EvOpen; EvMmap 4096 8192; EvStore 1 8192 171; EvMunmap 4096;
     EvMmap 4096 8192; EvLoad 1 8192; EvMunmap 4096].
Proof. vm_compute. auto. Qed.

Example scenario_and_zero :
  let o := main Basic pc ["mem"; "0x3000=0xDEADBEEF"; "0x3000&=0x0"; "0x3000"]
             boot in
  out (final o) = [("0x00000000" ++ nl)%string].
Proof. vm_compute. auto. Qed.

Example scenario_not_a_number :
  main Basic pc ["mem"; "not_a_number"] boot =
  Exit 1 (eprintf (MsgInvalid "not_a_number") boot).
Proof. reflexivity. Qed.

Example scenario_no_arguments :
  main Extended pc ["mem"] boot = Exit 1 (eprintf MsgUsage boot).
Proof. reflexivity. Qed.

Example scenario_page_boundary :
  trace (final (main Extended pc ["mem"; "0xfff=-1"; "d"; "0xffc"] boot)) =
  [EvOpen; EvMmap 8192 0; EvStore 4 4095 4294967295; EvMunmap 8192;
   EvMmap 8192 0; EvLoad 8 4092; EvMunmap 8192] /\
  out (final (main Extended pc ["mem"; "0xfff=-1"; "d"; "0xffc"] boot)) =
  [("0x00FFFFFFFF000000" ++ nl)%string].
Proof. vm_compute. auto. Qed.

Example scenario_swapped :
  out (final (main Extended pc
                ["mem"; "W"; "0x1000=0x12345678"; "0x1000"; "w"; "0x1000"]
                boot)) =
  [("0x12345678" ++ nl)%string; ("0x78563412" ++ nl)%string].
Proof. vm_compute. auto. Qed.

(** * Further properties of the two programs *)

(** ** The loops as lists *)

Lemma perform_run (V : variant) (E : env) (OPs : list entry) (todo : nat) :
  forall (op : nat) (w : world),
    (op + todo <= List.length OPs)%nat ->
    perform V E OPs op todo w = run V E (take todo (drop op OPs)) w.
Proof.
  induction todo as [|todo IH]; intros op w Hlen; cbn [perform].
  - reflexivity.
  - destruct (lookup_lt_is_Some_2 OPs op) as (e & He); [lia|].
    rewrite He, (drop_S _ _ _ He). cbn [take run].
    destruct (perform_op V E e w); try reflexivity.
    apply IH. lia.
Qed.

(** [main] once the command line is read. *)
Lemma main_run (V : variant) (E : env) (argv : list string) (w : world)
  (st : pstate) :
  parse V initial (List.tl argv) = Next st ->
  ops st = count_ops V (List.tl argv) /\
  main V E argv w =
  if (count_ops V (List.tl argv) =? 0)%nat then Exit 1 (eprintf MsgUsage w)
  else
    match open_error E with
    | Some reason => Exit 1 (eprintf (MsgCantOpen reason) w)
    | None => run V E (entries V 32 false (List.tl argv)) (log EvOpen w)
    end.
Proof.
  intros Hparse.
  destruct (parse_Next V _ initial st initial_inv Hparse)
    as ((Hlen & Hle & _ & _) & Hops & Htake & _).
  cbn [ops OP initial cur_width cur_swap] in Hops, Htake.
  rewrite Nat.add_0_l in Hops. rewrite take_0, app_nil_l in Htake.
  split; [exact Hops|].
  unfold main. rewrite Hparse, Hops.
  destruct (count_ops V (List.tl argv) =? 0)%nat; [reflexivity|].
  destruct (open_error E); [reflexivity|].
  rewrite <- Hops, perform_run by lia.
  now rewrite drop_0, Htake.
Qed.

(** The loop ends on a token only with one of its two messages. *)
Lemma parse_Die (V : variant) (args : list string) (st : pstate) (m : message) :
  inv st -> parse V st args = Die m ->
  m = MsgTooMany \/ exists t, In t args /\ m = MsgInvalid t.
Proof.
  revert st; induction args as [|arg rest IH]; intros st Hinv H;
    cbn [parse] in H; [discriminate|].
  destruct (parse_arg V st arg) as [st1|m1|] eqn:Harg; try discriminate.
  - destruct (IH _ (parse_arg_inv _ _ _ _ Hinv Harg) H) as [->|(t & Ht & ->)];
      [now left|right]. exists t. split; [now right|reflexivity].
  - inversion H; subst m1; clear H.
    destruct (mode_switch V (peek arg)) as [[wd s]|] eqn:Hm.
    + unfold parse_arg in Harg. rewrite Hm in Harg. discriminate.
    + rewrite parse_arg_op in Harg by assumption.
      destruct (ops st =? MAXOPS)%nat; [inversion Harg; now left|].
      destruct (operation arg) as [[[o a] v]|]; [discriminate|].
      inversion Harg. right. exists arg. split; [now left|reflexivity].
Qed.

(** A loop that reaches its end has accepted every token. *)
Lemma parse_Next_acceptable (V : variant) (args : list string)
  (st st' : pstate) :
  inv st -> parse V st args = Next st' ->
  Forall (fun t => acceptable V t = true) args.
Proof.
  revert st; induction args as [|arg rest IH]; intros st Hinv H;
    cbn [parse] in H; [constructor|].
  destruct (parse_arg V st arg) as [st1| |] eqn:Harg; try discriminate.
  constructor; [|eapply IH; [eapply parse_arg_inv; eassumption|exact H]].
  unfold acceptable, is_mode, well_formed.
  destruct (mode_switch V (peek arg)) as [[wd s]|] eqn:Hm; [reflexivity|].
  rewrite parse_arg_op in Harg by assumption.
  destruct (ops st =? MAXOPS)%nat; [discriminate|].
  destruct (operation arg) as [[[o a] v]|]; [reflexivity|discriminate].
Qed.

Lemma count_ops_modes (V : variant) (args : list string) :
  count_ops V args = 0%nat <-> Forall (fun t => is_mode V t = true) args.
Proof.
  induction args as [|t args IH].
  - split; [constructor|reflexivity].
  - rewrite count_ops_cons. destruct (is_mode V t) eqn:Ht.
    + rewrite IH. split; [now constructor|now inversion 1].
    + split; [discriminate|]. inversion 1; congruence.
Qed.

(** ** What an access leaves alone *)

Lemma access_err (V : variant) (E : env) (e : entry) (a : Z) (w : world) :
  err (access V E e a w) = err w.
Proof.
  unfold access. destruct (switch_width (width e)); [|reflexivity].
  destruct (operator e); reflexivity.
Qed.

Lemma access_trace (V : variant) (E : env) (e : entry) (a : Z) (w : world) :
  exists evs, trace (access V E e a w) = trace w ++ evs.
Proof.
  unfold access. destruct (switch_width (width e)) as [n|];
    [|exists []; now rewrite app_nil_r].
  destruct (operator e); cbn [load store printf log trace];
    rewrite <- ?app_assoc; eexists; reflexivity.
Qed.

(** One turn of the loop, by cases: the page size is zero, the mapping
    fails, or the access is made between the mapping and the unmapping. *)
Lemma perform_op_cases (V : variant) (E : env) (e : entry) (w : world) :
  sane E ->
  let ps := pagesize V E in
  match mmap_error E (to_uint64 (map_size ps e)) (map_start ps e) with
  | Some reason => perform_op V E e w = Die (MsgCantMap (address e) reason)
  | None =>
      perform_op V E e w =
      Next (log (EvMunmap (to_uint64 (map_size ps e)))
              (access V E e (to_uint64 (map_start ps e) + map_offset ps e)
                 (log (EvMmap (to_uint64 (map_size ps e)) (map_start ps e))
                    w)))
  end.
Proof.
  intros Hsane ps. pose proof (pagesize_sane V E Hsane) as Hps. fold ps in Hps.
  unfold perform_op. fold ps.
  replace (to_uint64 ps =? 0) with false
    by (symmetry; apply Z.eqb_neq; unfold to_uint64;
        rewrite Z.mod_small; lia).
  destruct (mmap_error E _ _); reflexivity.
Qed.

Lemma run_trace (V : variant) (E : env) (es : list entry) :
  forall (w w' : world) (s : Z),
    run V E es w = Exit s w' -> exists evs, trace w' = trace w ++ evs.
Proof.
  induction es as [|e es IH]; intros w w' s H; cbn [run] in H.
  - inversion H; subst. exists []. now rewrite app_nil_r.
  - unfold perform_op in H.
    destruct (to_uint64 (pagesize V E) =? 0); [discriminate|].
    destruct (mmap_error E _ _).
    + inversion H; subst. exists []. cbn. now rewrite app_nil_r.
    + destruct (IH _ _ _ H) as (evs & Hevs). rewrite Hevs. cbn [log trace].
      match goal with
      | |- context [access V E e ?a ?w0] =>
          destruct (access_trace V E e a w0) as (evs' & ->)
      end.
      cbn [log trace]. rewrite <- !app_assoc. eexists. reflexivity.
Qed.

(** ** How a run ends *)

Lemma eprintf_inj (m m' : message) (w : world) :
  eprintf m w = eprintf m' w -> m = m'.
Proof.
  intros H. apply (f_equal err) in H. cbn [err eprintf] in H.
  apply app_inv_head in H. now inversion H.
Qed.

Lemma run_exits (V : variant) (E : env) (es : list entry) :
  sane E ->
  forall w, exists s w',
    run V E es w = Exit s w' /\
    ((s = 0 /\ err w' = err w) \/
     (s = 1 /\ exists m, err w' = err w ++ [m])).
Proof.
  intros Hsane. induction es as [|e es IH]; intros w; cbn [run].
  - exists 0, w. split; [reflexivity|now left].
  - pose proof (perform_op_cases V E e w Hsane) as Hop. cbv zeta in Hop.
    destruct (mmap_error E _ _) as [reason|]; rewrite Hop.
    + eexists 1, _. split; [reflexivity|right].
      split; [reflexivity|]. eexists. reflexivity.
    + match goal with
      | |- context [run V E es ?w1] =>
          destruct (IH w1) as (s & w' & -> & Hs);
          assert (Herr : err w1 = err w)
            by (cbn [log err]; now rewrite access_err)
      end.
      exists s, w'. split; [reflexivity|]. now rewrite <- Herr.
Qed.

(** X1: the usage text is what is printed, with status 1 and nothing else
    done, exactly when no token of the command line is taken for an
    operation: when there is no token at all, or modes only. *)
Theorem usage_iff_no_operation (V : variant) (E : env) (prog : string)
  (args : list string) (w : world) :
  main V E (prog :: args) w = Exit 1 (eprintf MsgUsage w) <->
  Forall (fun t => is_mode V t = true) args.
Proof.
  split.
  - intros H. apply count_ops_modes.
    destruct (parse V initial args) as [st|m|] eqn:Hparse.
    + destruct (main_run V E (prog :: args) w st Hparse) as (_ & Hmain).
      cbn [List.tl] in Hmain. rewrite Hmain in H.
      destruct (Nat.eqb_spec (count_ops V args) 0) as [Hz|_]; [exact Hz|].
      destruct (open_error E) as [reason|].
      * inversion H as [Herr]. apply app_inv_head in Herr. discriminate.
      * apply run_trace in H. destruct H as (evs & Hevs).
        cbn [trace eprintf log] in Hevs.
        apply (f_equal (@List.length event)) in Hevs.
        rewrite !length_app in Hevs. cbn in Hevs. lia.
    + unfold main in H. cbn [List.tl] in H. rewrite Hparse in H.
      inversion H as [Herr]. apply app_inv_head in Herr.
      destruct (parse_Die V args initial m initial_inv Hparse)
        as [->|(t & _ & ->)]; discriminate.
    + now apply (parse_defined V args initial initial_inv) in Hparse.
  - intros Hmodes.
    assert (Hcount : count_ops V args = 0%nat) by now apply count_ops_modes.
    assert (Hacc : Forall (fun t => acceptable V t = true) args).
    { eapply List.Forall_impl; [|exact Hmodes].
      intros t Ht. unfold acceptable. now rewrite Ht. }
    pose proof (parse_acceptable V args initial initial_inv Hacc) as Hrun.
    cbn [ops initial] in Hrun. rewrite Hcount in Hrun. cbn in Hrun.
    destruct Hrun as (st & Hst).
    destruct (main_run V E (prog :: args) w st Hst) as (_ & ->).
    cbn [List.tl]. now rewrite Hcount.
Qed.

(** X2: with a page size the loop can compute with, every run ends by
    [exit] with status 0 or 1, never in undefined behaviour.  Status 0
    means that every token was accepted, that between 1 and [MAXOPS]
    operations were listed and that nothing was written to standard error;
    status 1 comes with exactly one message. *)
Theorem main_exits (V : variant) (E : env) (argv : list string) (w : world) :
  sane E ->
  exists s w',
    main V E argv w = Exit s w' /\
    ((s = 0 /\ err w' = err w /\
      Forall (fun t => acceptable V t = true) (List.tl argv) /\
      (1 <= count_ops V (List.tl argv) <= MAXOPS)%nat /\
      open_error E = None) \/
     (s = 1 /\ exists m, err w' = err w ++ [m])).
Proof.
  intros Hsane.
  destruct (parse V initial (List.tl argv)) as [st|m|] eqn:Hparse.
  - destruct (main_run V E argv w st Hparse) as (Hops & ->).
    destruct (parse_Next V _ initial st initial_inv Hparse)
      as ((_ & Hle & _ & _) & _ & _ & _).
    destruct (Nat.eqb_spec (count_ops V (List.tl argv)) 0) as [|Hnz].
    + eexists 1, _. split; [reflexivity|right].
      split; [reflexivity|]. eexists. reflexivity.
    + destruct (open_error E) as [reason|] eqn:Hopen.
      * eexists 1, _. split; [reflexivity|right].
        split; [reflexivity|]. eexists. reflexivity.
      * destruct (run_exits V E (entries V 32 false (List.tl argv)) Hsane
                    (log EvOpen w)) as (s & w' & -> & [(-> & Herr)|Hs]).
        -- exists 0, w'. split; [reflexivity|left]. conj; auto; try lia.
           eapply parse_Next_acceptable; [apply initial_inv|exact Hparse].
        -- exists s, w'. split; [reflexivity|now right].
  - unfold main. rewrite Hparse.
    eexists 1, _. split; [reflexivity|right].
    split; [reflexivity|]. eexists. reflexivity.
  - now apply (parse_defined V _ initial initial_inv) in Hparse.
Qed.

Lemma main_exits_witness :
  exists s w', main Extended pc ["mem"; "H"; "0x10^=0xFF00"; "0x10"] boot
               = Exit s w'.
Proof.
  destruct (main_exits Extended pc ["mem"; "H"; "0x10^=0xFF00"; "0x10"] boot)
    as (s & w' & H & _).
  - unfold sane. cbn. lia.
  - exists s, w'. exact H.
Defined.

(** X3: when [/dev/mem] cannot be opened, a command line of accepted
    tokens with between 1 and [MAXOPS] operations ends with status 1 and
    the reason of the failure; nothing is mapped, read, written or
    printed. *)
Theorem open_failure_is_fatal (V : variant) (E : env) (prog : string)
  (args : list string) (reason : string) (w : world) :
  Forall (fun t => acceptable V t = true) args ->
  (1 <= count_ops V args <= MAXOPS)%nat ->
  open_error E = Some reason ->
  main V E (prog :: args) w = Exit 1 (eprintf (MsgCantOpen reason) w).
Proof.
  intros Hacc Hcount Hopen.
  pose proof (parse_acceptable V args initial initial_inv Hacc) as Hrun.
  cbn [ops initial] in Hrun. rewrite Nat.add_0_l in Hrun.
  destruct (Nat.leb_spec (count_ops V args) MAXOPS); [|lia].
  destruct Hrun as (st & Hst).
  destruct (main_run V E (prog :: args) w st Hst) as (_ & ->).
  cbn [List.tl]. rewrite Hopen.
  destruct (Nat.eqb_spec (count_ops V args) 0); [lia|reflexivity].
Qed.

Lemma open_failure_is_fatal_witness :
  main Basic unprivileged ["mem"; "b"; "0x1000=1"; "0x1000"] boot =
  Exit 1 (eprintf (MsgCantOpen "Permission denied") boot).
Proof.
  apply (open_failure_is_fatal Basic unprivileged "mem"
           ["b"; "0x1000=1"; "0x1000"]).
  - repeat (apply List.Forall_cons; [reflexivity|]). apply List.Forall_nil.
  - vm_compute. lia.
  - reflexivity.
Defined.

(** X4: a mapping that fails ends the run with status 1 and a message that
    names the address.  The operations before it have been executed and
    stay so, the ones after it are not attempted: the world is the one the
    loop had reached, with the message added. *)
Theorem mapping_failure_stops_the_loop (V : variant) (E : env)
  (OPs : list entry) (k r : nat) (e : entry) (reason : string) :
  sane E ->
  forall (op : nat) (w w1 : world),
    perform V E OPs op k w = Exit 0 w1 ->
    OPs !! (op + k)%nat = Some e ->
    mmap_error E (to_uint64 (map_size (pagesize V E) e))
      (map_start (pagesize V E) e) = Some reason ->
    perform V E OPs op (k + S r) w =
    Exit 1 (eprintf (MsgCantMap (address e) reason) w1).
Proof.
  intros Hsane. induction k as [|k IH]; intros op w w1 Hrun He Hmap.
  - cbn in Hrun. inversion Hrun; subst w1.
    rewrite Nat.add_0_r in He. cbn [Nat.add perform]. rewrite He.
    pose proof (perform_op_cases V E e w Hsane) as Hop. cbv zeta in Hop.
    rewrite Hmap in Hop. now rewrite Hop.
  - cbn [Nat.add perform] in Hrun |- *.
    destruct (OPs !! op) as [e0|]; [|discriminate].
    destruct (perform_op V E e0 w) as [w0| |]; try discriminate.
    apply IH; [exact Hrun| |exact Hmap].
    now replace (S op + k)%nat with (op + S k)%nat by lia.
Qed.

Lemma mapping_failure_stops_the_loop_witness :
  let OPs := [Build_entry WRITE 32 false 4096 7;
              Build_entry WRITE 32 false 8192 8;
              Build_entry WRITE 32 false 4096 9] in
  exists w1,
    perform Basic guarded OPs 0 1 boot = Exit 0 w1 /\
    perform Basic guarded OPs 0 3 boot =
      Exit 1 (eprintf (MsgCantMap 8192 "EPERM") w1).
Proof.
  intros OPs. eexists. split; [reflexivity|].
  apply (mapping_failure_stops_the_loop Basic guarded OPs 1 1
           (Build_entry WRITE 32 false 8192 8) "EPERM").
  - unfold sane. cbn. lia.
  - reflexivity.
  - reflexivity.
  - reflexivity.
Defined.

(** ** Operands that change nothing *)

Lemma encode_decode (E : env) (bs : list Z) :
  Forall (fun b => 0 <= b < 256) bs ->
  encode E (List.length bs) (decode E bs) = bs.
Proof.
  intros H. unfold encode, decode. destruct (big_endian E).
  - rewrite <- (length_rev bs).
    rewrite to_le_of_le by now apply Forall_rev.
    apply rev_involutive.
  - now apply to_le_of_le.
Qed.

Lemma nth_get_bytes (m : Z -> Z) (a : Z) (n i : nat) :
  (i < n)%nat -> nth i (get_bytes m a n) 0 = m (a + Z.of_nat i) mod 256.
Proof.
  intros Hi. unfold get_bytes.
  rewrite (nth_indep _ 0 (m (a + Z.of_nat 0) mod 256))
    by now rewrite length_map, length_seq.
  rewrite (map_nth (fun i => m (a + Z.of_nat i) mod 256)).
  now rewrite seq_nth by exact Hi.
Qed.

(** Storing what was loaded changes no byte. *)
Lemma put_loaded (E : env) (m : Z -> Z) (a : Z) (n : nat) (x : Z) :
  put_bytes m a (encode E n (decode E (get_bytes m a n))) x mod 256 =
  m x mod 256.
Proof.
  rewrite <- (get_bytes_length m a n) at 1.
  rewrite encode_decode by apply get_bytes_range.
  unfold put_bytes. rewrite get_bytes_length.
  destruct ((a <=? x) && (x <? a + Z.of_nat n)) eqn:Hin; [|reflexivity].
  apply andb_true_iff in Hin. destruct Hin as (Hlo & Hhi).
  apply Z.leb_le in Hlo. apply Z.ltb_lt in Hhi.
  rewrite nth_get_bytes by lia.
  rewrite Z.mod_mod by lia. f_equal. f_equal. lia.
Qed.

(** X5: an exclusive or with 0, an or with 0 and an and with all ones (in
    the low bits that the width keeps) leave memory as it is: every load
    after the access sees what it would have seen before. *)
Theorem neutral_operand_keeps_memory (V : variant) (E : env) (e : entry)
  (a : Z) (w : world) (n : nat) :
  switch_width (width e) = Some n ->
  ((operator e = XOR \/ operator e = OR) /\ data e mod 2 ^ width e = 0) \/
  (operator e = AND /\ data e mod 2 ^ width e = 2 ^ width e - 1) ->
  (forall a' k, get_bytes (mem (access V E e a w)) a' k =
                get_bytes (mem w) a' k) /\
  out (access V E e a w) = out w.
Proof.
  intros Hw Hneutral.
  destruct (width_bits _ _ Hw) as (Hpow & Hbits).
  set (old := decode E (get_bytes (mem w) a n)).
  pose proof (loaded_range E (mem w) a n) as Hold. fold old in Hold.
  assert (Hsame : encode E n (applied (operator e) old (data e)) =
                  encode E n old).
  { rewrite <- (encode_mod E n (applied _ _ _)), <- Hpow.
    rewrite applied_trunc by lia.
    rewrite <- (encode_mod E n old), <- Hpow. f_equal.
    destruct Hneutral as [([-> | ->] & ->)|(-> & ->)]; cbn [applied].
    - now rewrite Z.lxor_0_r.
    - now rewrite Z.lor_0_r.
    - replace (2 ^ width e - 1) with (Z.ones (width e))
        by (rewrite Z.ones_equiv; lia).
      rewrite Z.land_ones by lia.
      now rewrite Z.mod_mod by (apply Z.pow_nonzero; lia). }
  assert (Hmem : mem (access V E e a w) =
                 put_bytes (mem w) a (encode E n old)).
  { rewrite (access_width V E e a w n Hw). fold old.
    destruct Hneutral as [([Ho | Ho] & _)|(Ho & _)]; rewrite Ho in Hsame |- *;
      cbn [store log mem]; now rewrite Hsame. }
  split.
  - intros a' k. rewrite Hmem. unfold get_bytes.
    apply map_ext. intros i. apply put_loaded.
  - rewrite (access_out V E e a w n Hw). unfold is_read.
    destruct Hneutral as [([-> | ->] & _)|(-> & _)]; apply app_nil_r.
Qed.

Lemma neutral_operand_keeps_memory_witness :
  let e := Build_entry AND 16 false 4096 131071 (* 0x1FFFF *) in
  get_bytes (mem (access Basic pc e 4096 boot)) 4095 4 =
  get_bytes (mem boot) 4095 4.
Proof.
  intros e.
  destruct (neutral_operand_keeps_memory Basic pc e 4096 boot 2) as (H & _).
  - reflexivity.
  - right. split; reflexivity.
  - apply H.
Defined.

(** ** Where a run goes *)

(** The size handed to [mmap] is the size computed, and the access is made
    at the address of the entry. *)
Lemma mapping_facts (V : variant) (E : env) (e : entry) (n : nat) :
  sane E ->
  0 <= address e < 2 ^ 64 ->
  switch_width (width e) = Some n ->
  let ps := pagesize V E in
  to_uint64 (map_size ps e) = map_size ps e /\
  to_uint64 (map_start ps e) + map_offset ps e = address e /\
  width e / 8 = Z.of_nat n.
Proof.
  intros Hsane Ha Hw ps.
  pose proof (pagesize_sane V E Hsane) as Hps. fold ps in Hps.
  destruct (width_bits _ _ Hw) as (_ & Hbits).
  assert (Hn : (1 <= n <= 8)%nat)
    by (destruct (switch_width_cases _ _ Hw)
          as [[_ ->]|[[_ ->]|[[_ ->]|[_ ->]]]]; lia).
  assert (Hw8 : width e / 8 = Z.of_nat n)
    by (rewrite Hbits, Z.mul_comm; apply Z.div_mul; lia).
  assert (Hoff : 0 <= address e mod ps < ps) by (apply Z.mod_pos_bound; lia).
  assert (Hle : address e mod ps <= address e) by (apply Z.mod_le; lia).
  assert (Hmo : map_offset ps e = address e mod ps).
  { unfold map_offset, to_uint64. rewrite (Z.mod_small ps) by lia.
    apply to_signed_small; lia. }
  conj.
  - unfold map_size, to_int, to_uint64. rewrite Hmo, Hw8.
    rewrite (to_signed_small 32 (address e mod ps + Z.of_nat n)) by lia.
    destruct (address e mod ps + Z.of_nat n >? ps).
    + rewrite to_signed_small by lia. apply Z.mod_small. lia.
    + apply Z.mod_small. lia.
  - unfold map_start. rewrite to_uint64_off_t, Hmo.
    unfold to_uint64. rewrite Z.mod_mod by lia.
    rewrite Z.mod_small by lia. lia.
  - exact Hw8.
Qed.

(** An access changes no byte outside its datum. *)
Lemma access_frame (V : variant) (E : env) (e : entry) (a : Z) (w : world)
  (n : nat) (x : Z) :
  switch_width (width e) = Some n ->
  ~ (a <= x < a + Z.of_nat n) ->
  mem (access V E e a w) x = mem w x.
Proof.
  intros Hw Hx. rewrite (access_width V E e a w n Hw).
  assert (Hput : forall v, put_bytes (mem w) a (encode E n v) x = mem w x).
  { intros v. unfold put_bytes. rewrite encode_length.
    destruct (Z.leb_spec a x); destruct (Z.ltb_spec x (a + Z.of_nat n));
      cbn [andb]; try reflexivity. lia. }
  destruct (operator e); cbn [store printf log mem]; auto.
Qed.

Lemma run_frame (V : variant) (E : env) (es : list entry) :
  sane E ->
  Forall (fun e => switch_width (width e) <> None) es ->
  Forall (fun e => 0 <= address e < 2 ^ 64) es ->
  forall (w w' : world) (s : Z) (x : Z),
    run V E es w = Exit s w' ->
    (forall e, In e es -> ~ in_datum e x) ->
    mem w' x = mem w x.
Proof.
  intros Hsane Hws Has. induction es as [|e es IH];
    intros w w' s x Hrun Hx; cbn [run] in Hrun.
  - now inversion Hrun.
  - inversion Hws as [|? ? Hw Hws']; inversion Has as [|? ? Ha Has']; subst.
    destruct (switch_width (width e)) as [n|] eqn:Hn; [|contradiction].
    pose proof (perform_op_cases V E e w Hsane) as Hop. cbv zeta in Hop.
    destruct (mmap_error E _ _) as [reason|]; rewrite Hop in Hrun.
    + now inversion Hrun.
    + rewrite (IH Hws' Has' _ _ _ _ Hrun)
        by (intros e' He'; apply Hx; now right).
      cbn [log mem].
      destruct (mapping_facts V E e n Hsane Ha Hn) as (_ & -> & Hw8).
      rewrite (access_frame V E e _ _ n x Hn); [reflexivity|].
      specialize (Hx e (or_introl eq_refl)). unfold in_datum in Hx.
      now rewrite Hw8 in Hx.
Qed.

(** X6: whatever the command line and however the run ends, the only
    bytes of memory it may have changed are those of the data its
    operations address: a byte that belongs to the datum of no listed
    entry is as it was. *)
Theorem run_changes_only_addressed_data (V : variant) (E : env)
  (argv : list string) (w w' : world) (s : Z) (x : Z) :
  sane E ->
  main V E argv w = Exit s w' ->
  (forall e, In e (entries V 32 false (List.tl argv)) -> ~ in_datum e x) ->
  mem w' x = mem w x.
Proof.
  intros Hsane Hmain Hx.
  destruct (parse V initial (List.tl argv)) as [st|m|] eqn:Hparse.
  - destruct (main_run V E argv w st Hparse) as (_ & Heq).
    rewrite Heq in Hmain.
    destruct (count_ops V (List.tl argv) =? 0)%nat; [now inversion Hmain|].
    destruct (open_error E); [now inversion Hmain|].
    apply (run_frame V E _ Hsane) with (x := x) in Hmain; auto.
    + apply entries_widths. vm_compute. discriminate.
    + apply entries_addresses.
  - unfold main in Hmain. rewrite Hparse in Hmain. now inversion Hmain.
  - unfold main in Hmain. rewrite Hparse in Hmain. discriminate.
Qed.

Lemma run_changes_only_addressed_data_witness :
  exists s w',
    main Extended pc ["mem"; "h"; "0x1000=0xFFFF"; "b"; "0x1003|=1"] boot
      = Exit s w' /\
    mem w' 4098 = mem boot 4098.
Proof.
  destruct (main Extended pc
              ["mem"; "h"; "0x1000=0xFFFF"; "b"; "0x1003|=1"] boot)
    as [s w'|w'] eqn:Hmain; [|vm_compute in Hmain; discriminate Hmain].
  exists s, w'. split; [reflexivity|].
  apply (run_changes_only_addressed_data Extended pc _ boot w' s 4098)
    in Hmain.
  - exact Hmain.
  - unfold sane. cbn. lia.
  - intros e He. vm_compute in He.
    destruct He as [<-|[<-|[]]]; unfold in_datum; cbn [address width];
      try change (16 / 8) with 2; try change (8 / 8) with 1; lia.
Defined.

(** ** The device accesses of a run *)

Lemma access_events (V : variant) (E : env) (e : entry) (a : Z) (w : world)
  (n : nat) :
  switch_width (width e) = Some n ->
  exists accs,
    trace (access V E e a w) = trace w ++ accs /\
    match operator e with
    | READ => accs = [EvLoad n a]
    | WRITE => exists v, accs = [EvStore n a v]
    | _ => exists v, accs = [EvLoad n a; EvStore n a v]
    end.
Proof.
  intros Hw. rewrite (access_width V E e a w n Hw).
  destruct (operator e); cbn [store printf log trace];
    rewrite <- ?app_assoc; eexists; (split; [reflexivity|]);
    cbn [app]; eauto.
Qed.

Lemma run_blocks (V : variant) (E : env) (es : list entry) :
  sane E ->
  Forall (fun e => switch_width (width e) <> None) es ->
  Forall (fun e => 0 <= address e < 2 ^ 64) es ->
  forall (w w' : world),
    run V E es w = Exit 0 w' ->
    exists blocks,
      trace w' = trace w ++ concat blocks /\
      Forall2 (block_of (pagesize V E)) es blocks.
Proof.
  intros Hsane Hws Has. induction es as [|e es IH];
    intros w w' Hrun; cbn [run] in Hrun.
  - inversion Hrun; subst. exists []. cbn. rewrite app_nil_r.
    split; [reflexivity|constructor].
  - inversion Hws as [|? ? Hw Hws']; inversion Has as [|? ? Ha Has']; subst.
    destruct (switch_width (width e)) as [n|] eqn:Hn; [|contradiction].
    pose proof (perform_op_cases V E e w Hsane) as Hop. cbv zeta in Hop.
    destruct (mmap_error E _ _) as [reason|]; rewrite Hop in Hrun;
      [discriminate|].
    destruct (IH Hws' Has' _ _ Hrun) as (blocks & Htrace & Hblocks).
    destruct (mapping_facts V E e n Hsane Ha Hn) as (Hsize & Hptr & _).
    rewrite Hsize, Hptr in Htrace. cbn [log trace] in Htrace.
    match type of Htrace with
    | context [access V E e ?a ?w0] =>
        destruct (access_events V E e a w0 n Hn) as (accs & Hacc & Hshape)
    end.
    rewrite Hacc in Htrace. cbn [log trace] in Htrace.
    exists ((EvMmap (map_size (pagesize V E) e) (map_start (pagesize V E) e)
               :: accs ++ [EvMunmap (map_size (pagesize V E) e)]) :: blocks).
    split.
    + rewrite Htrace. cbn [concat]. rewrite <- !app_assoc. cbn [app].
      now rewrite <- app_assoc.
    + constructor; [|exact Hblocks].
      exists n, accs. conj; [exact Hn|reflexivity|exact Hshape].
Qed.

(** X7: the device accesses of a run that ends with status 0 are the
    opening of the device followed by one block for each operation, in the
    order of the command line: the mapping of the page or the two pages of
    the datum, the load and the store that the operator makes at the
    address of the operation, and the unmapping of what was mapped. *)
Theorem successful_run_accesses (V : variant) (E : env) (argv : list string)
  (w w' : world) :
  sane E ->
  main V E argv w = Exit 0 w' ->
  exists blocks,
    trace w' = trace w ++ EvOpen :: concat blocks /\
    Forall2 (block_of (pagesize V E)) (entries V 32 false (List.tl argv))
      blocks.
Proof.
  intros Hsane Hmain.
  destruct (parse V initial (List.tl argv)) as [st|m|] eqn:Hparse;
    try (unfold main in Hmain; rewrite Hparse in Hmain; discriminate).
  destruct (main_run V E argv w st Hparse) as (_ & Heq).
  rewrite Heq in Hmain.
  destruct (count_ops V (List.tl argv) =? 0)%nat; [discriminate|].
  destruct (open_error E); [discriminate|].
  destruct (run_blocks V E _ Hsane
              (entries_widths V _ 32 false ltac:(vm_compute; discriminate))
              (entries_addresses V _ 32 false) _ _ Hmain)
    as (blocks & Htrace & Hblocks).
  exists blocks. split; [|exact Hblocks].
  rewrite Htrace. cbn [log trace]. now rewrite <- app_assoc.
Qed.

Lemma successful_run_accesses_witness :
  exists w' blocks,
    main Basic pc ["mem"; "0xffe|=1"; "b"; "0x10"] boot = Exit 0 w' /\
    trace w' = EvOpen :: concat blocks /\
    List.length blocks = 2%nat.
Proof.
  destruct (main Basic pc ["mem"; "0xffe|=1"; "b"; "0x10"] boot)
    as [s w'|w'] eqn:Hmain; [|vm_compute in Hmain; discriminate Hmain].
  assert (Hs : s = 0) by (vm_compute in Hmain; congruence).
  subst s.
  destruct (successful_run_accesses Basic pc
              ["mem"; "0xffe|=1"; "b"; "0x10"] boot w') as (bs & Ht & Hb).
  - unfold sane. cbn. lia.
  - exact Hmain.
  - exists w', bs. conj; [reflexivity|exact Ht|].
    apply Forall2_length in Hb. rewrite <- Hb. reflexivity.
Defined.

(** ** The two versions *)







(** ** Literals *)

Lemma upper_hex_digit (c : ascii) (d : Z) :
  upper_hex c = Some d -> digit_in 16 c = Some d.
Proof.
  unfold upper_hex, digit_in, digit_of. intros H.
  destruct (Z.leb_spec 48 (code c)); destruct (Z.leb_spec (code c) 57);
    cbn [andb] in H |- *;
    try (inversion H; subst;
         destruct (Z.ltb_spec (code c - 48) 16); [reflexivity|lia]);
    destruct (Z.leb_spec 65 (code c)); destruct (Z.leb_spec (code c) 70);
    cbn [andb] in H; try discriminate H;
    (inversion H; subst;
     destruct (Z.leb_spec 97 (code c)); [lia|]; cbn [andb];
     destruct (Z.leb_spec (code c) 90); [|lia]; cbn [andb];
     destruct (Z.ltb_spec (code c - 55) 16); [reflexivity|lia]).
Qed.

Lemma scan_upper_hex (ds : list ascii) (acc v : Z) :
  hex_value acc ds = Some v ->
  scan_digits 16 acc (string_of_list_ascii ds) = (v, "").
Proof.
  revert acc. induction ds as [|c ds IH]; intros acc H;
    cbn [hex_value string_of_list_ascii scan_digits] in H |- *.
  - now inversion H.
  - destruct (upper_hex c) as [d|] eqn:Hc; [|discriminate].
    rewrite (upper_hex_digit c d Hc).
    replace (acc * 16 + d) with (16 * acc + d) by lia. now apply IH.
Qed.

Lemma hex_value_bound (ds : list ascii) (acc v : Z) :
  hex_value acc ds = Some v -> 0 <= acc -> 0 <= v.
Proof.
  revert acc. induction ds as [|c ds IH]; intros acc H Hacc;
    cbn [hex_value] in H.
  - inversion H. lia.
  - destruct (upper_hex c) as [d|] eqn:Hc; [|discriminate].
    apply (IH _ H). apply upper_hex_digit in Hc.
    unfold digit_in in Hc. destruct (digit_of c) as [d'|] eqn:Hd;
      [|discriminate].
    apply digit_of_nonneg in Hd. destruct (d' <? 16); inversion Hc. lia.
Qed.

(** X9: what a read prints can be given back to the program: the text of
    an output line without its newline is a literal that [strtoull] reads
    to its end as the value printed, so it is an operation token that
    reads that address and a value that writes that datum. *)
Theorem printed_value_reads_back (k : nat) (v : Z) :
  (1 <= k <= 16)%nat ->
  0 <= v < 16 ^ Z.of_nat k ->
  exists text,
    print_hex k v = (text ++ nl)%string /\
    strtoull text = (v, "") /\
    operation text = Some (READ, v, None).
Proof.
  intros Hk Hv.
  destruct (print_hex_line k v) as (ds & Hline & Hlen & Hval); [lia|exact Hv|].
  exists ("0x" ++ string_of_list_ascii ds)%string.
  assert (Hs : strtoull ("0x" ++ string_of_list_ascii ds) = (v, "")).
  { destruct ds as [|c ds].
    - cbn [List.length] in Hlen. rewrite Z.mul_comm, Z.div_mul in Hlen; lia.
    - pose proof Hval as Hval'. cbn [hex_value] in Hval'.
      destruct (upper_hex c) as [d|] eqn:Hc; [|discriminate].
      apply upper_hex_digit in Hc.
      unfold strtoull. cbn [append skip_space string_of_list_ascii].
      change (isspace "0") with false. cbv iota.
      unfold scan_sign. cbn [peek advance].
      change ("0" =? "-")%char with false.
      change ("0" =? "+")%char with false. cbv iota.
      unfold scan_base. cbn [peek advance].
      change ("0" =? "0")%char with true.
      change (("x" =? "x")%char || ("x" =? "X")%char) with true.
      rewrite Hc. cbn [andb]. cbv iota beta. cbn [peek]. rewrite Hc.
      change (String c (string_of_list_ascii ds))
        with (string_of_list_ascii (c :: ds)).
      rewrite (scan_upper_hex _ 0 v Hval).
      replace (ULLONG_MAX <? v) with false; [reflexivity|].
      symmetry. apply Z.ltb_ge. unfold ULLONG_MAX.
      assert (16 ^ Z.of_nat k <= 16 ^ 16)
        by (apply Z.pow_le_mono_r; lia).
      change (16 ^ 16) with (2 ^ 64) in *. lia. }
  conj.
  - rewrite Hline. cbn [append]. reflexivity.
  - exact Hs.
  - unfold operation. rewrite Hs. reflexivity.
Qed.

Lemma printed_value_reads_back_witness :
  exists text,
    print_hex 8 3735928559 (* 0xDEADBEEF *) = (text ++ nl)%string /\
    strtoull text = (3735928559, "").
Proof.
  destruct (printed_value_reads_back 8 3735928559) as (t & Hp & Hs & _).
  - lia.
  - split; [lia|reflexivity].
  - exists t. split; [exact Hp|exact Hs].
Defined.

(** X10: a decimal literal that starts with a digit other than 0 is read
    as its value, and as 2 ^ 64 - 1 when the value does not fit 64 bits:
    the program takes such a literal without complaint. *)
Theorem decimal_literal_saturates (d0 : Z) (ds : list Z) :
  1 <= d0 <= 9 ->
  Forall (fun d => 0 <= d <= 9) ds ->
  let n := decimal (d0 :: ds) in
  strtoull (numeral (d0 :: ds)) = (Z.min n ULLONG_MAX, "") /\
  operation (numeral (d0 :: ds)) = Some (READ, Z.min n ULLONG_MAX, None).
Proof.
  intros Hd0 Hds n.
  assert (Hall : Forall (fun d => 0 <= d <= 9) (d0 :: ds))
    by (constructor; [lia|exact Hds]).
  destruct (digit_char d0) as (Hdig & Hz); [lia|].
  assert (Hsp : isspace (digit_ascii d0) = false /\
                (digit_ascii d0 =? "-")%char = false /\
                (digit_ascii d0 =? "+")%char = false).
  { assert (Hn : (Z.to_nat d0 < 10)%nat) by lia.
    rewrite <- (Z2Nat.id d0) by lia.
    generalize dependent (Z.to_nat d0). intros m Hm.
    do 10 (destruct m as [|m]; [conj; reflexivity|]). lia. }
  destruct Hsp as (Hsp & Hminus & Hplus).
  assert (Hs : strtoull (numeral (d0 :: ds)) = (Z.min n ULLONG_MAX, "")).
  { unfold strtoull, numeral.
    cbn [List.map string_of_list_ascii skip_space].
    rewrite Hsp. unfold scan_sign. cbn [peek]. rewrite Hminus, Hplus.
    unfold scan_base. cbn [peek]. rewrite Hz by lia.
    cbv iota beta. cbn [peek]. rewrite Hdig.
    change (String (digit_ascii d0)
              (string_of_list_ascii (List.map digit_ascii ds)))
      with (numeral (d0 :: ds)).
    rewrite (scan_digits_numeral _ 0 Hall). fold (decimal (d0 :: ds)).
    fold n. destruct (Z.ltb_spec ULLONG_MAX n).
    - now rewrite Z.min_r by lia.
    - now rewrite Z.min_l by lia. }
  split; [exact Hs|].
  unfold operation. rewrite Hs.
  replace (same_ptr "" (numeral (d0 :: ds))) with false; reflexivity.
Qed.

Lemma decimal_literal_saturates_witness :
  strtoull "99999999999999999999" = (18446744073709551615, "").
Proof.
  destruct (decimal_literal_saturates 9
              [9;9;9;9;9;9;9;9;9;9;9;9;9;9;9;9;9;9;9]) as (H & _).
  - lia.
  - repeat (apply List.Forall_cons; [lia|]). apply List.Forall_nil.
  - exact H.
Defined.

(** ** What the parse loop guarantees to the perform loop *)

Lemma operation_value_range (arg : string) (o : optype) (a d : Z) :
  operation arg = Some (o, a, Some d) -> 0 <= d < 2 ^ 64.
Proof.
  unfold operation. intros H.
  destruct (strtoull arg) as [a' p].
  destruct (same_ptr p arg); [discriminate|].
  destruct (switch_operator p) as [|o' p'|]; try discriminate.
  destruct (peek p' =? NUL)%char; [discriminate|].
  pose proof (strtoull_range p') as Hd.
  destruct (strtoull p') as [d' p'']. cbn [fst] in Hd.
  destruct (peek p'' =? NUL)%char; [|discriminate].
  inversion H; subst. exact Hd.
Qed.

Lemma swap_data_range (sw : bool) (w d : Z) :
  0 <= d < 2 ^ 64 -> 0 <= swap_data sw w d < 2 ^ 64.
Proof.
  intros Hd. unfold swap_data. destruct sw; [|exact Hd].
  destruct (w =? 16); [pose proof (bswap_range 2 d) as H|
  destruct (w =? 32); [pose proof (bswap_range 4 d) as H|
  destruct (w =? 64); [pose proof (bswap_range 8 d) as H|exact Hd]]].
  - change (256 ^ Z.of_nat 2) with 65536 in H. lia.
  - change (256 ^ Z.of_nat 4) with 4294967296 in H. lia.
  - change (256 ^ Z.of_nat 8) with (2 ^ 64) in H. lia.
Qed.

(** X11: the entries the parse loop hands to the perform loop are as many
    as the tokens not taken for modes, and each of them has one of the four
    widths (so the width switch of the perform loop always finds its case),
    an address and a datum of 64 bits, a zero datum when it is a read, and
    is swapped only in the version that has swapped modes and never for a
    byte. *)
Theorem listed_entries_fit (V : variant) (args : list string) (st : pstate) :
  parse V initial args = Next st ->
  List.length (take (ops st) (OP st)) = count_ops V args /\
  Forall (fun e =>
            switch_width (width e) <> None /\
            0 <= address e < 2 ^ 64 /\
            0 <= data e < 2 ^ 64 /\
            (swap e = true -> V = Extended /\ width e <> 8) /\
            (operator e = READ -> data e = 0))
    (take (ops st) (OP st)).
Proof.
  intros Hparse.
  destruct (parse_Next V args initial st initial_inv Hparse)
    as ((Hlen & Hle & _ & _) & Hops & Htake & _).
  cbn [ops OP initial cur_width cur_swap] in Hops, Htake.
  rewrite Nat.add_0_l in Hops. rewrite take_0, app_nil_l in Htake.
  split; [rewrite length_take; lia|].
  rewrite Htake. clear Hparse Hops Htake Hlen Hle st.
  assert (Hgood : switch_width 32 <> None /\
                  (false = true -> V = Extended /\ 32 <> 8))
    by (split; [vm_compute|]; discriminate).
  revert Hgood. generalize 32 false.
  induction args as [|arg rest IH]; intros w sw (Hw & Hsw); cbn [entries].
  - constructor.
  - destruct (mode_switch V (peek arg)) as [[w' sw']|] eqn:Hm.
    + apply IH. split; [eapply mode_switch_width, Hm|].
      eapply mode_switch_swap, Hm.
    + destruct (operation arg) as [[[o a] v]|] eqn:Hop; constructor;
        [|apply IH; now split].
      cbn [width address data swap operator fill zero_entry].
      refine (conj Hw (conj _ (conj _ (conj Hsw _)))).
      * eapply operation_range, Hop.
      * destruct v as [d|]; [|lia].
        apply swap_data_range. eapply operation_value_range, Hop.
      * intros ->. destruct v as [d|]; [|reflexivity].
        now apply operation_value in Hop.
Qed.

Lemma listed_entries_fit_witness :
  exists st,
    parse Extended initial ["D"; "0x10=0x0102030405060708"; "b"; "0x10"]
      = Next st /\
    List.length (take (ops st) (OP st)) = 2%nat.
Proof.
  destruct (parse Extended initial
              ["D"; "0x10=0x0102030405060708"; "b"; "0x10"])
    as [st| |] eqn:Hparse; try (vm_compute in Hparse; discriminate Hparse).
  exists st. split; [reflexivity|].
  now destruct (listed_entries_fit Extended _ st Hparse) as (-> & _).
Defined.

(** ** One command line or two *)

Lemma same_io_log (ev : event) (w1 w2 : world) :
  same_io w1 w2 -> same_io (log ev w1) (log ev w2).
Proof. intros H. exact H. Qed.

Lemma access_same_io (V : variant) (E : env) (e : entry) (a : Z)
  (w1 w2 : world) :
  same_io w1 w2 -> same_io (access V E e a w1) (access V E e a w2).
Proof.
  destruct w1 as [m1 o1 e1 t1], w2 as [m2 o2 e2 t2].
  unfold same_io. cbn [mem out err]. intros (-> & -> & ->).
  unfold access. destruct (switch_width (width e)); [|now conj].
  destruct (operator e); cbn; now conj.
Qed.

Lemma run_same_io (V : variant) (E : env) (es : list entry) :
  forall w1 w2,
    same_io w1 w2 ->
    match run V E es w1, run V E es w2 with
    | Exit s1 a, Exit s2 b => s1 = s2 /\ same_io a b
    | Crash a, Crash b => same_io a b
    | _, _ => False
    end.
Proof.
  induction es as [|e es IH]; intros w1 w2 Hio; cbn [run].
  - now split.
  - unfold perform_op.
    destruct (to_uint64 (pagesize V E) =? 0); [exact Hio|].
    destruct (mmap_error E _ _).
    { split; [reflexivity|]. destruct Hio as (Hm & Ho & He).
      unfold same_io. cbn [mem out err eprintf]. now rewrite He. }
    apply IH, same_io_log, access_same_io, same_io_log, Hio.
Qed.

Lemma run_app (V : variant) (E : env) (es1 es2 : list entry) (w : world) :
  run V E (es1 ++ es2) w =
  match run V E es1 w with
  | Exit s w1 => if s =? 0 then run V E es2 w1 else Exit s w1
  | Crash w1 => Crash w1
  end.
Proof.
  revert w. induction es1 as [|e es1 IH]; intros w; cbn [app run].
  - reflexivity.
  - destruct (perform_op V E e w); [apply IH|reflexivity..].
Qed.

Lemma entries_app (V : variant) (args1 args2 : list string) :
  Forall (fun t => acceptable V t = true) args1 ->
  forall w sw,
    entries V w sw (args1 ++ args2) =
    entries V w sw args1 ++
    entries V (fst (mode_after V (w, sw) args1))
      (snd (mode_after V (w, sw) args1)) args2.
Proof.
  induction 1 as [|t args1 Ht _ IH]; intros w sw;
    cbn [app entries mode_after]; [reflexivity|].
  unfold acceptable, is_mode, well_formed in Ht.
  destruct (mode_switch V (peek t)) as [[w' sw']|]; [apply IH|].
  destruct (operation t) as [[[o a] v]|]; [|discriminate].
  cbn [app]. now rewrite IH.
Qed.

(** X12: one command line does what its two halves do one after the
    other.  When a first command line runs to status 0 and ends in the
    default mode, and a second one then runs to status 0, the two joined
    into one (if it has room for their operations) run to status 0 and
    leave the same memory and the same output. *)
Theorem joined_command_lines (V : variant) (E : env) (prog : string)
  (args1 args2 : list string) (w w1 w2 : world) :
  main V E (prog :: args1) w = Exit 0 w1 ->
  main V E (prog :: args2) w1 = Exit 0 w2 ->
  mode_after V (32, false) args1 = (32, false) ->
  (count_ops V args1 + count_ops V args2 <= MAXOPS)%nat ->
  exists w',
    main V E (prog :: args1 ++ args2) w = Exit 0 w' /\ same_io w' w2.
Proof.
  intros Hmain1 Hmain2 Hmode Hroom.
  destruct (parse V initial args1) as [st1| |] eqn:Hp1;
    try (unfold main in Hmain1; cbn [List.tl] in Hmain1;
         rewrite Hp1 in Hmain1; discriminate).
  destruct (parse V initial args2) as [st2| |] eqn:Hp2;
    try (unfold main in Hmain2; cbn [List.tl] in Hmain2;
         rewrite Hp2 in Hmain2; discriminate).
  destruct (main_run V E (prog :: args1) w st1 Hp1) as (_ & Heq1).
  destruct (main_run V E (prog :: args2) w1 st2 Hp2) as (_ & Heq2).
  cbn [List.tl] in Heq1, Heq2. rewrite Heq1 in Hmain1. rewrite Heq2 in Hmain2.
  destruct (Nat.eqb_spec (count_ops V args1) 0) as [|Hn1]; [discriminate|].
  destruct (count_ops V args2 =? 0)%nat; [discriminate|].
  destruct (open_error E) as [reason|] eqn:Hopen; [discriminate|].
  pose proof (parse_Next_acceptable V _ _ _ initial_inv Hp1) as Hacc1.
  pose proof (parse_Next_acceptable V _ _ _ initial_inv Hp2) as Hacc2.
  pose proof (parse_acceptable V (args1 ++ args2) initial initial_inv
                (proj2 (List.Forall_app _ _ _) (conj Hacc1 Hacc2))) as Hrun.
  cbn [ops initial] in Hrun. rewrite Nat.add_0_l, count_ops_app in Hrun.
  destruct (Nat.leb_spec (count_ops V args1 + count_ops V args2) MAXOPS);
    [|lia].
  destruct Hrun as (st & Hst).
  destruct (main_run V E (prog :: args1 ++ args2) w st Hst) as (_ & Heq).
  cbn [List.tl] in Heq. rewrite Heq, count_ops_app, Hopen.
  destruct (Nat.eqb_spec (count_ops V args1 + count_ops V args2) 0);
    [lia|].
  rewrite (entries_app V args1 args2 Hacc1), Hmode. cbn [fst snd].
  rewrite run_app, Hmain1. cbn [Z.eqb].
  pose proof (run_same_io V E (entries V 32 false args2) w1 (log EvOpen w1))
    as Hio.
  rewrite Hmain2 in Hio.
  destruct (run V E (entries V 32 false args2) w1) as [s a|a].
  - destruct Hio as (-> & Hio); [now conj|]. exists a. now split.
  - now destruct Hio.
Qed.

Lemma joined_command_lines_witness :
  exists w',
    main Basic pc ["mem"; "b"; "0x10=5"; "w"; "0x10|=0x300"; "0x10"] boot
      = Exit 0 w' /\
    out w' = [print_hex 8 773 (* 0x305 *)].
Proof.
  destruct (main Basic pc ["mem"; "b"; "0x10=5"; "w"] boot)
    as [s1 w1|w1] eqn:H1; [|vm_compute in H1; discriminate H1].
  assert (Hs1 : s1 = 0) by (vm_compute in H1; congruence). subst s1.
  destruct (main Basic pc ["mem"; "0x10|=0x300"; "0x10"] w1)
    as [s2 w2|w2] eqn:H2;
    [|inversion H1; subst w1; vm_compute in H2; discriminate H2].
  assert (Hs2 : s2 = 0)
    by (vm_compute in H1; inversion H1; subst w1; vm_compute in H2;
        congruence).
  subst s2.
  destruct (joined_command_lines Basic pc "mem" ["b"; "0x10=5"; "w"]
              ["0x10|=0x300"; "0x10"] boot w1 w2 H1 H2)
    as (w' & Hrun & (_ & Hout & _)).
  - reflexivity.
  - vm_compute. lia.
  - exists w'. split; [exact Hrun|]. rewrite Hout.
    vm_compute in H1. inversion H1; subst w1.
    vm_compute in H2. inversion H2. reflexivity.
Defined.

(** ** The shape of an operation token *)

Lemma length_append (a b : string) :
  String.length (a ++ b) = (String.length a + String.length b)%nat.
Proof. induction a as [|c a IH]; cbn; [reflexivity|now rewrite IH]. Qed.

Lemma append_assoc (a b c : string) :
  ((a ++ b) ++ c = a ++ b ++ c)%string.
Proof. induction a as [|x a IH]; cbn; [reflexivity|now rewrite IH]. Qed.

Lemma append_nil_r (a : string) : (a ++ "")%string = a.
Proof. induction a as [|x a IH]; cbn; [reflexivity|now rewrite IH]. Qed.

(** A character that is no digit in any base is no [x] either. *)
Lemma not_digit_not_x (c : ascii) :
  digit_of c = None -> (c =? "x")%char = false /\ (c =? "X")%char = false.
Proof.
  intros H. split.
  - destruct (Ascii.eqb_spec c "x") as [->|]; [discriminate H|reflexivity].
  - destruct (Ascii.eqb_spec c "X") as [->|]; [discriminate H|reflexivity].
Qed.

Lemma skip_space_app (A t : string) :
  skip_space A <> "" -> skip_space (A ++ t) = (skip_space A ++ t)%string.
Proof.
  induction A as [|c A IH]; cbn [skip_space append]; intros H.
  - contradiction.
  - destruct (isspace c); [now apply IH|reflexivity].
Qed.

Lemma scan_sign_app (s t : string) :
  s <> "" ->
  scan_sign (s ++ t) = (fst (scan_sign s), (snd (scan_sign s) ++ t)%string).
Proof.
  destruct s as [|c s]; [contradiction|]. intros _.
  unfold scan_sign. cbn [append peek advance].
  destruct (c =? "-")%char; [reflexivity|].
  destruct (c =? "+")%char; reflexivity.
Qed.

Lemma scan_base_app (s : string) (c : ascii) (r : string) :
  s <> "" -> digit_of c = None ->
  scan_base (s ++ String c r) =
  (fst (scan_base s), (snd (scan_base s) ++ String c r)%string).
Proof.
  intros Hs Hc. destruct (not_digit_not_x c Hc) as (Hx & HX).
  assert (Hc16 : digit_in 16 c = None) by (unfold digit_in; now rewrite Hc).
  destruct s as [|c0 [|c1 [|c2 s]]]; [contradiction|..];
    unfold scan_base; cbn [append peek advance];
    destruct (c0 =? "0")%char; try reflexivity.
  - rewrite Hx, HX. reflexivity.
  - rewrite Hc16. change (digit_in 16 NUL) with (@None Z).
    now rewrite !andb_false_r.
  - destruct (((c1 =? "x")%char || (c1 =? "X")%char)
              && match digit_in 16 c2 with Some _ => true | None => false end);
      reflexivity.
Qed.

Lemma scan_digits_app (base : Z) (s : string) (c : ascii) (r : string) :
  digit_of c = None ->
  forall acc,
    scan_digits base acc (s ++ String c r) =
    (fst (scan_digits base acc s),
     (snd (scan_digits base acc s) ++ String c r)%string).
Proof.
  intros Hc. induction s as [|c0 s IH]; intros acc;
    cbn [append scan_digits].
  - unfold digit_in. now rewrite Hc.
  - destruct (digit_in base c0); [apply IH|reflexivity].
Qed.

(** What [strtoull] reads does not depend on what follows the literal,
    when that starts with a character that is not a digit. *)
Lemma strtoull_app (A : string) (c : ascii) (r : string) :
  digit_of c = None ->
  same_ptr (snd (strtoull A)) A = false ->
  strtoull (A ++ String c r) =
  (fst (strtoull A), (snd (strtoull A) ++ String c r)%string).
Proof.
  intros Hc Hconv. unfold strtoull in *.
  destruct (scan_sign (skip_space A)) as [neg s1] eqn:Hsign.
  destruct (scan_base s1) as [base s2] eqn:Hbase.
  destruct (digit_in base (peek s2)) as [d|] eqn:Hdig.
  - assert (H2 : s2 <> "").
    { intros ->. unfold digit_in in Hdig. cbn in Hdig. discriminate. }
    assert (H1 : s1 <> "").
    { intros ->. cbn in Hbase. inversion Hbase. congruence. }
    assert (H0 : skip_space A <> "").
    { intros H0. rewrite H0 in Hsign. cbn in Hsign. inversion Hsign.
      congruence. }
    rewrite skip_space_app by exact H0.
    rewrite scan_sign_app by exact H0. rewrite Hsign. cbn [fst snd].
    rewrite scan_base_app by assumption. rewrite Hbase. cbn [fst snd].
    replace (peek (s2 ++ String c r)) with (peek s2)
      by (destruct s2; [contradiction|reflexivity]).
    rewrite Hdig, scan_digits_app by exact Hc.
    destruct (scan_digits base 0 s2) as [n endptr]. reflexivity.
  - cbn [snd] in Hconv. unfold same_ptr in Hconv.
    now rewrite Nat.eqb_refl in Hconv.
Qed.

Lemma strtoull_to_end (B : string) (d : Z) :
  strtoull B = (d, "") -> B <> "" -> (peek B =? NUL)%char = false.
Proof.
  intros H HB. destruct B as [|c r]; [contradiction|]. cbn [peek].
  destruct (Ascii.eqb_spec c NUL) as [->|]; [|reflexivity].
  rewrite strtoull_no_digit in H by reflexivity. discriminate H.
Qed.

(** X13: an address literal followed by an operator and a value literal is
    an operation.  When [strtoull] reads the text [A] to its end as [a] and
    the text [B] to its end as [d], then [A] alone reads the address [a],
    and [A=B], [A&=B], [A|=B] and [A^=B] write to it, and it, or it and
    exclusive-or it with [d]. *)
Theorem operation_of_literals (A B : string) (a d : Z) :
  strtoull A = (a, "") -> A <> "" ->
  strtoull B = (d, "") -> B <> "" ->
  operation A = Some (READ, a, None) /\
  forall o, o <> READ ->
            operation (A ++ symbol o ++ B) = Some (o, a, Some d).
Proof.
  intros HA HAne HB HBne.
  assert (Hlen : (0 < String.length A)%nat)
    by (destruct A; [contradiction|cbn; lia]).
  split.
  - unfold operation. rewrite HA.
    replace (same_ptr "" A) with false
      by (symmetry; apply Nat.eqb_neq; cbn; lia).
    reflexivity.
  - intros o Ho. unfold operation.
    assert (Hs : strtoull (A ++ symbol o ++ B) = (a, (symbol o ++ B)%string)).
    { destruct o; try contradiction; cbn [symbol append];
        (rewrite strtoull_app;
         [rewrite HA; reflexivity
         |reflexivity
         |rewrite HA; cbn [snd]; unfold same_ptr; apply Nat.eqb_neq;
          cbn [String.length]; lia]). }
    rewrite Hs.
    replace (same_ptr (symbol o ++ B) (A ++ symbol o ++ B)) with false
      by (symmetry; apply Nat.eqb_neq; rewrite (length_append A); lia).
    replace (switch_operator (symbol o ++ B)) with (SufValue o B)
      by (destruct o; try contradiction; reflexivity).
    rewrite (strtoull_to_end B d HB HBne), HB. reflexivity.
Qed.

Lemma operation_of_literals_witness :
  operation "0x1F" = Some (READ, 31, None) /\
  operation "0x1F^=-1" = Some (XOR, 31, Some 18446744073709551615).
Proof.
  destruct (operation_of_literals "0x1F" "-1" 31 18446744073709551615)
    as (Hr & Hv); try reflexivity; try discriminate.
  split; [exact Hr|]. apply (Hv XOR). discriminate.
Defined.

Lemma skip_space_suffix (s : string) :
  exists A, s = (A ++ skip_space s)%string.
Proof.
  induction s as [|c s (A & IH)]; [now exists ""|]. cbn [skip_space].
  destruct (isspace c); [|now exists ""].
  exists (String c A). cbn. now rewrite <- IH.
Qed.

Lemma advance_suffix (s : string) : exists A, s = (A ++ advance s)%string.
Proof.
  destruct s as [|c s]; [now exists ""|]. now exists (String c "").
Qed.

Lemma scan_digits_suffix (base : Z) (s : string) :
  forall acc, exists A, s = (A ++ snd (scan_digits base acc s))%string.
Proof.
  induction s as [|c s IH]; intros acc; cbn [scan_digits];
    [now exists ""|].
  destruct (digit_in base c) as [d|]; [|now exists ""].
  destruct (IH (acc * base + d)) as (A & HA).
  exists (String c A). cbn. now rewrite <- HA.
Qed.

(** The end pointer of [strtoull] points into the string it was given. *)
Lemma strtoull_suffix (s : string) :
  exists A, s = (A ++ snd (strtoull s))%string.
Proof.
  unfold strtoull.
  destruct (skip_space_suffix s) as (A0 & H0).
  assert (H1 : exists A1, skip_space s
                          = (A1 ++ snd (scan_sign (skip_space s)))%string).
  { unfold scan_sign.
    destruct (peek (skip_space s) =? "-")%char; [apply advance_suffix|].
    destruct (peek (skip_space s) =? "+")%char; [apply advance_suffix|].
    now exists "". }
  destruct H1 as (A1 & H1).
  destruct (scan_sign (skip_space s)) as [neg s1]. cbn [snd] in H1.
  assert (H2 : exists A2, s1 = (A2 ++ snd (scan_base s1))%string).
  { unfold scan_base. destruct (peek s1 =? "0")%char; [|now exists ""].
    match goal with |- context [if ?b then _ else _] => destruct b end;
      [|now exists ""].
    destruct (advance_suffix s1) as (B1 & HB1).
    destruct (advance_suffix (advance s1)) as (B2 & HB2).
    exists (B1 ++ B2)%string. cbn [snd].
    now rewrite append_assoc, <- HB2. }
  destruct H2 as (A2 & H2).
  destruct (scan_base s1) as [base s2]. cbn [snd] in H2.
  destruct (digit_in base (peek s2)); [|now exists ""].
  destruct (scan_digits_suffix base s2 0) as (A3 & H3).
  destruct (scan_digits base 0 s2) as [n endptr]. cbn [snd] in H3 |- *.
  exists (A0 ++ A1 ++ A2 ++ A3)%string.
  rewrite !append_assoc, <- H3, <- H2, <- H1. exact H0.
Qed.

Lemma switch_operator_symbol (p p' : string) (o : optype) :
  switch_operator p = SufValue o p' -> p = (symbol o ++ p')%string.
Proof.
  unfold switch_operator. intros H.
  assert (Hhead : forall c : ascii, c <> NUL -> (peek p =? c)%char = true ->
                                    p = String c (advance p)).
  { intros c Hc Hp. apply Ascii.eqb_eq in Hp.
    destruct p as [|c0 r]; cbn [peek advance] in Hp |- *;
      [exfalso; apply Hc; symmetry; exact Hp|congruence]. }
  assert (Hnext : (peek (advance p) =? "=")%char = true ->
                  advance p = String "=" (advance (advance p))).
  { intros Hp. apply Ascii.eqb_eq in Hp.
    destruct (advance p) as [|c0 r]; cbn [peek advance] in Hp |- *;
      [discriminate Hp|congruence]. }
  destruct (peek p =? NUL)%char; [discriminate|].
  destruct (peek p =? "&")%char eqn:Hand.
  { destruct (peek (advance p) =? "=")%char eqn:Heq; [|discriminate].
    inversion H; subst. cbn [symbol append].
    rewrite <- (Hnext eq_refl). apply Hhead; [discriminate|exact Hand]. }
  destruct (peek p =? "^")%char eqn:Hxor.
  { destruct (peek (advance p) =? "=")%char eqn:Heq; [|discriminate].
    inversion H; subst. cbn [symbol append].
    rewrite <- (Hnext eq_refl). apply Hhead; [discriminate|exact Hxor]. }
  destruct (peek p =? "|")%char eqn:Hor.
  { destruct (peek (advance p) =? "=")%char eqn:Heq; [|discriminate].
    inversion H; subst. cbn [symbol append].
    rewrite <- (Hnext eq_refl). apply Hhead; [discriminate|exact Hor]. }
  destruct (peek p =? "=")%char eqn:Hwr; [|discriminate].
  inversion H; subst. cbn [symbol append]. apply Hhead;
    [discriminate|exact Hwr].
Qed.

(** X14: an operation has no other shape.  A token without a NUL
    character that the loop reads as an operation is an address literal
    alone, for a read, or an address literal, one of the operators [=],
    [&=], [|=], [^=] and a value literal that [strtoull] reads to the end
    of the token. *)
Theorem operation_shape (arg : string) (o : optype) (a : Z) (v : option Z) :
  (forall pre post, arg <> (pre ++ String NUL post)%string) ->
  operation arg = Some (o, a, v) ->
  exists A,
    A <> "" /\
    match v with
    | None => o = READ /\ arg = A /\ strtoull A = (a, "")
    | Some d =>
        o <> READ /\
        exists B,
          arg = (A ++ symbol o ++ B)%string /\ B <> "" /\
          strtoull arg = (a, (symbol o ++ B)%string) /\
          strtoull B = (d, "")
    end.
Proof.
  intros Hnul H. pose proof H as Hop. unfold operation in H.
  destruct (strtoull_suffix arg) as (A & HA).
  destruct (strtoull arg) as [a' p] eqn:Hs. cbn [snd] in HA.
  destruct (same_ptr p arg) eqn:Hsame; [discriminate|].
  assert (HAne : A <> "").
  { intros ->. cbn in HA. subst p. unfold same_ptr in Hsame.
    now rewrite Nat.eqb_refl in Hsame. }
  assert (Hend : forall q pre, arg = (pre ++ q)%string ->
                               (peek q =? NUL)%char = true -> q = "").
  { intros q pre Hq Hp. destruct q as [|c r]; [reflexivity|].
    apply Ascii.eqb_eq in Hp. cbn in Hp. subst c.
    now apply Hnul in Hq. }
  exists A. split; [exact HAne|].
  destruct (switch_operator p) as [|o' p'|] eqn:Hsw; try discriminate.
  - injection H as <- <- <-. unfold switch_operator in Hsw.
    destruct (peek p =? NUL)%char eqn:Hp.
    + apply (Hend p A HA) in Hp. subst p. rewrite append_nil_r in HA.
      rewrite <- HA. now conj.
    + repeat match type of Hsw with
             | (if ?b then _ else _) = _ => destruct b
             end; discriminate.
  - apply switch_operator_symbol in Hsw.
    destruct (peek p' =? NUL)%char eqn:Hp'; [discriminate|].
    destruct (strtoull_suffix p') as (A2 & HA2).
    destruct (strtoull p') as [d' p''] eqn:Hs'. cbn [snd] in HA2.
    destruct (peek p'' =? NUL)%char eqn:Hp''; [|discriminate].
    injection H as <- <- <-.
    assert (Hq : p'' = "").
    { apply (Hend p'' (A ++ symbol o' ++ A2)%string); [|exact Hp''].
      rewrite HA, Hsw. rewrite HA2 at 1. now rewrite !append_assoc. }
    rewrite Hq in Hs'. split; [eapply operation_value, Hop|].
    exists p'. rewrite <- Hsw. conj; auto.
    intros ->. cbn in Hp'. discriminate.
Qed.

Lemma operation_shape_witness :
  exists A B,
    "0777|=0x10" = (A ++ symbol OR ++ B)%string /\
    strtoull B = (16, "").
Proof.
  destruct (operation_shape "0777|=0x10" OR 511 (Some 16))
    as (A & _ & _ & B & HAB & _ & _ & HB).
  - intros pre post H.
    apply (f_equal list_ascii_of_string) in H.
    assert (Hin : In NUL (list_ascii_of_string (pre ++ String NUL post))).
    { clear H. induction pre as [|c pre IH]; cbn; auto. }
    rewrite <- H in Hin. cbn in Hin.
    repeat (destruct Hin as [Hin|Hin]; [discriminate Hin|]). exact Hin.
  - reflexivity.
  - exists A, B. split; [exact HAB|exact HB].
Defined.

(** ** Which command lines are accepted *)

(** X15: the parse loop reaches its end exactly on the command lines in
    which every token starts with a mode character or reads as an
    operation, and at most [MAXOPS] tokens are operations; 256 operations
    are accepted. *)
Theorem command_line_accepted_iff (V : variant) (args : list string) :
  (exists st, parse V initial args = Next st) <->
  Forall (fun t => acceptable V t = true) args /\
  (count_ops V args <= MAXOPS)%nat.
Proof.
  split.
  - intros (st & Hst). split.
    + eapply parse_Next_acceptable; [apply initial_inv|exact Hst].
    + destruct (parse_Next V args initial st initial_inv Hst)
        as ((_ & Hle & _ & _) & Hops & _ & _).
      cbn [ops initial] in Hops. lia.
  - intros (Hacc & Hle).
    pose proof (parse_acceptable V args initial initial_inv Hacc) as Hrun.
    cbn [ops initial] in Hrun. rewrite Nat.add_0_l in Hrun.
    destruct (Nat.leb_spec (count_ops V args) MAXOPS); [exact Hrun|lia].
Qed.

(** X16: only the first character of a token counts for a mode: a token
    that starts with a mode character does what that character alone
    does, whatever follows it in the token. *)
Theorem mode_token_first_character (V : variant) (E : env) (prog : string)
  (pre : list string) (t : string) (post : list string) (w : world) :
  is_mode V t = true ->
  main V E (prog :: pre ++ t :: post) w =
  main V E (prog :: pre ++ String (peek t) "" :: post) w.
Proof.
  intros Ht. unfold main. cbn [List.tl].
  assert (Hparse : parse V initial (pre ++ t :: post) =
                   parse V initial (pre ++ String (peek t) "" :: post)).
  { rewrite !parse_app.
    destruct (parse V initial pre) as [st| |]; try reflexivity.
    unfold is_mode in Ht.
    destruct (mode_switch V (peek t)) as [[wd sw]|] eqn:Hm; [|discriminate].
    cbn [parse]. unfold parse_arg. cbn [peek]. now rewrite Hm. }
  now rewrite Hparse.
Qed.

Lemma mode_token_first_character_witness :
  main Basic pc ["mem"; "0x10=0x1234"; "hello"; "0x10"] boot =
  main Basic pc ["mem"; "0x10=0x1234"; "h"; "0x10"] boot.
Proof.
  apply (mode_token_first_character Basic pc "mem" ["0x10=0x1234"] "hello"
           ["0x10"] boot).
  reflexivity.
Defined.

(** ** Reads *)

Lemma run_reads (V : variant) (E : env) (es : list entry) :
  Forall (fun e => operator e = READ) es ->
  forall (w w' : world) (s : Z),
    run V E es w = Exit s w' -> mem w' = mem w.
Proof.
  induction 1 as [|e es He _ IH]; intros w w' s Hrun; cbn [run] in Hrun.
  - now inversion Hrun.
  - unfold perform_op in Hrun.
    destruct (to_uint64 (pagesize V E) =? 0); [discriminate|].
    destruct (mmap_error E _ _); [now inversion Hrun|].
    rewrite (IH _ _ _ Hrun). cbn [log mem].
    unfold access. rewrite He.
    destruct (switch_width (width e)); reflexivity.
Qed.

(** X17: a command line whose operations are all reads leaves memory as
    it is, however the run ends. *)
Theorem reads_leave_memory (V : variant) (E : env) (argv : list string)
  (w w' : world) (s : Z) :
  Forall (fun e => operator e = READ) (entries V 32 false (List.tl argv)) ->
  main V E argv w = Exit s w' ->
  mem w' = mem w.
Proof.
  intros Hreads Hmain.
  destruct (parse V initial (List.tl argv)) as [st|m|] eqn:Hparse.
  - destruct (main_run V E argv w st Hparse) as (_ & Heq).
    rewrite Heq in Hmain.
    destruct (count_ops V (List.tl argv) =? 0)%nat; [now inversion Hmain|].
    destruct (open_error E); [now inversion Hmain|].
    now apply (run_reads V E _ Hreads) in Hmain.
  - unfold main in Hmain. rewrite Hparse in Hmain. now inversion Hmain.
  - unfold main in Hmain. rewrite Hparse in Hmain. discriminate.
Qed.

Lemma reads_leave_memory_witness :
  exists s w',
    main Extended pc ["mem"; "0x1000"; "D"; "0x1ffc"; "b"; "0"] boot
      = Exit s w' /\
    mem w' = mem boot.
Proof.
  destruct (main Extended pc ["mem"; "0x1000"; "D"; "0x1ffc"; "b"; "0"] boot)
    as [s w'|w'] eqn:Hmain; [|vm_compute in Hmain; discriminate Hmain].
  exists s, w'. split; [reflexivity|].
  apply (reads_leave_memory Extended pc
           ["mem"; "0x1000"; "D"; "0x1ffc"; "b"; "0"] boot w' s);
    [|exact Hmain].
  vm_compute. repeat constructor.
Defined.

(** ** Swapped modes *)

Lemma encode_bswap (E : env) (n : nat) (v : Z) :
  encode E n (bswap n v) = encode (other_order E) n v.
Proof.
  unfold encode, other_order. cbn [big_endian]. rewrite to_le_bswap.
  destruct (big_endian E); cbn [negb]; [apply rev_involutive|reflexivity].
Qed.

Lemma bswap_decode (E : env) (bs : list Z) :
  Forall (fun b => 0 <= b < 256) bs ->
  bswap (List.length bs) (decode E bs) = decode (other_order E) bs.
Proof.
  intros Hbs. unfold bswap, decode, other_order. cbn [big_endian].
  destruct (big_endian E); cbn [negb].
  - rewrite <- (length_rev bs).
    rewrite to_le_of_le by now apply Forall_rev.
    now rewrite rev_involutive.
  - now rewrite to_le_of_le.
Qed.

(** X18: the swapped modes H, W and D access the datum in the byte order
    opposite to the one of the processor: a write leaves in memory the
    bytes of the value in that order, and a read prints the datum that the
    bytes in memory spell in that order. *)
Theorem swapped_modes_use_other_order (E : env) (prog m : string)
  (wd : Z) (w0 : world) :
  spec_mode Extended m = Some (wd, true) ->
  sane E ->
  open_error E = None ->
  (forall size off, mmap_error E size off = None) ->
  exists n,
    switch_width wd = Some n /\
    (forall warg a v,
        operation warg = Some (WRITE, a, Some v) ->
        exists w',
          main Extended E [prog; m; warg] w0 = Exit 0 w' /\
          get_bytes (mem w') a n = encode (other_order E) n v) /\
    (forall rarg a,
        operation rarg = Some (READ, a, None) ->
        exists w',
          main Extended E [prog; m; rarg] w0 = Exit 0 w' /\
          out w' =
            out w0 ++
            [print_hex (2 * n)
               (decode (other_order E) (get_bytes (mem w0) a n))]).
Proof.
  intros Hmode Hsane Hopen Hmap.
  apply spec_mode_switch in Hmode.
  destruct (switch_width wd) as [n|] eqn:Hw;
    [|now apply mode_switch_width in Hmode].
  destruct (mode_switch_swap Extended _ _ _ Hmode eq_refl) as (_ & Hne).
  assert (Hn1 : (n =? 1)%nat = false)
    by (destruct (switch_width_cases _ _ Hw)
          as [[? ->]|[[_ ->]|[[_ ->]|[_ ->]]]];
        [contradiction|reflexivity..]).
  assert (Hswap : forall v, swap_data true wd v = bswap n v)
    by (intros v; destruct (switch_width_cases _ _ Hw)
          as [[? ->]|[[-> ->]|[[-> ->]|[-> ->]]]];
        [contradiction|reflexivity..]).
  set (st1 := Build_pstate wd true 0 (OP initial)).
  assert (H1 : parse_arg Extended initial m = Next st1)
    by (unfold parse_arg; now rewrite Hmode).
  pose proof (parse_arg_inv _ _ _ _ initial_inv H1) as Hinv1.
  assert (Hlen : List.length (OP initial) = MAXOPS) by apply initial_inv.
  assert (Hmain : forall arg o a v,
    operation arg = Some (o, a, v) ->
    main Extended E [prog; m; arg] w0 =
    let e := fill zero_entry wd true o a v in
    let ps := pagesize Extended E in
    Exit 0
      (log (EvMunmap (to_uint64 (map_size ps e)))
         (access Extended E e (address e)
            (log (EvMmap (to_uint64 (map_size ps e)) (map_start ps e))
               (log EvOpen w0))))).
  { intros arg o a v Harg.
    assert (Hnm : mode_switch Extended (peek arg) = None)
      by (apply well_formed_not_mode; unfold well_formed; now rewrite Harg).
    set (e := fill zero_entry wd true o a v).
    set (st2 := Build_pstate wd true 1 (<[0%nat := e]> (OP initial))).
    assert (H2 : parse_arg Extended st1 arg = Next st2)
      by (rewrite parse_arg_op by assumption;
          cbn [ops st1 Nat.eqb MAXOPS]; now rewrite Harg).
    assert (He : OP st2 !! 0%nat = Some e)
      by (cbn [OP st2]; apply list_lookup_insert_eq; rewrite Hlen;
          unfold MAXOPS; lia).
    assert (Hops : ops st2 = 1%nat) by reflexivity.
    clearbody st2.
    unfold main. cbn [List.tl parse]. rewrite H1, H2, Hops.
    cbn [Nat.eqb]. rewrite Hopen. cbn [perform]. rewrite He.
    rewrite (perform_op_mapped Extended E e) by auto. cbv zeta.
    destruct (mapping_facts Extended E e n Hsane) as (_ & -> & _);
      [cbn [address e fill]; eapply operation_range, Harg|exact Hw|].
    reflexivity. }
  exists n. conj; [reflexivity|..].
  - intros warg a v Hwarg. eexists. split; [apply (Hmain _ _ _ _ Hwarg)|].
    cbv zeta. cbn [log mem].
    rewrite (access_width Extended E
               (fill zero_entry wd true WRITE a (Some v)) _ _ n Hw).
    cbn [operator data address fill store log mem].
    rewrite Hswap, encode_bswap.
    rewrite <- (encode_length (other_order E) n v) at 2.
    apply get_put_bytes, encode_bytes.
  - intros rarg a Hrarg. eexists. split; [apply (Hmain _ _ _ _ Hrarg)|].
    cbv zeta. cbn [log out].
    rewrite (access_out Extended E
               (fill zero_entry wd true READ a None) _ _ n Hw).
    cbn [is_read operator address fill log out mem].
    unfold shown. cbn [swap fill]. rewrite Hn1.
    rewrite <- (get_bytes_length (mem w0) a n) at 2.
    now rewrite bswap_decode by apply get_bytes_range.
Qed.

Lemma swapped_modes_use_other_order_witness :
  exists w',
    main Extended pc ["mem"; "H"; "0x10=0x1234"] boot = Exit 0 w' /\
    get_bytes (mem w') 16 2 = [18; 52] (* 0x12, 0x34 *).
Proof.
  destruct (swapped_modes_use_other_order pc "mem" "H" 16 boot)
    as (n & Hn & Hwrite & _).
  - reflexivity.
  - unfold sane. cbn. lia.
  - reflexivity.
  - reflexivity.
  - inversion Hn; subst n.
    destruct (Hwrite "0x10=0x1234" 16 4660 eq_refl) as (w' & Hrun & Hmem).
    exists w'. split; [exact Hrun|exact Hmem].
Defined.
